(** * cdblib: DJB's constant databases, writer and reader

    A shallow embedding of [cdblib.py]: the hash function [djb_hash], the
    adapter [might_mask], the [Writer] that lays out records, the 256
    open-addressed tables and the header, and the [Reader] that probes
    them.  Integers are [Z] (Python integers are unbounded), byte strings
    are lists of [byte], the output file is a buffer with a cursor, and
    generators are finite traces of yields ending in a stop or an
    exception. *)

From Stdlib Require Import ZArith List Lia Bool String.
From Stdlib Require Import Init.Byte Strings.Byte.
From Stdlib Require Import DecimalString.
From stdpp Require Import base list.

Open Scope Z_scope.

(** ** Byte strings *)

Abbreviation bytes := (list byte).

#[global] Instance byte_eq_decision : EqDecision byte := Byte.byte_eq_dec.

(** [ord(c)] and its inverse on [0..255]. *)
Definition ord (c : byte) : Z := Z.of_N (Byte.to_N c).

Definition chr (n : Z) : byte :=
  match Byte.of_N (Z.to_N (n `mod` 256)) with
  | Some c => c
  | None => x00
  end.

(** [len(s)] *)
Definition len {A} (s : list A) : Z := Z.of_nat (List.length s).

(** [s[i:j]] for [0 <= i] and [0 <= j], the only way the module slices:
    the part of [s] from [i] up to [j], cut short at the end of [s]. *)
Definition slice {A} (s : list A) (i j : Z) : list A :=
  take (Z.to_nat (j - i)) (drop (Z.to_nat i) s).

(** A literal such as ['dave']. *)
Definition b (s : string) : bytes := list_byte_of_string s.

(** ** [Struct('<LL')]

    [pack] writes two unsigned 32-bit little-endian integers.  A number
    outside [0, 2^32) is written by its low 32 bits, which is what the
    interpreter named in the module's first line does (later ones raise
    [struct.error] instead); the theorems about built images assume that
    every number written fits.  [unpack] raises [struct.error] unless it is
    given exactly eight bytes: here [None]. *)

Definition le4 (n : Z) : bytes :=
  [chr n; chr (n ≫ 8); chr (n ≫ 16); chr (n ≫ 24)].

Definition un_le4 (b0 b1 b2 b3 : byte) : Z :=
  Z.lor (ord b0)
    (Z.lor (ord b1 ≪ 8) (Z.lor (ord b2 ≪ 16) (ord b3 ≪ 24))).

Definition write_2_le4 (x y : Z) : bytes := le4 x ++ le4 y.

Definition read_2_le4 (s : bytes) : option (Z * Z) :=
  match s with
  | [a0; a1; a2; a3; b0; b1; b2; b3] =>
      Some (un_le4 a0 a1 a2 a3, un_le4 b0 b1 b2 b3)
  | _ => None
  end.

Arguments write_2_le4 : simpl never.

(** ** Exceptions and generators *)

Inductive exn :=
| IOError
| KeyError (key : bytes)
| struct_error.

Inductive result (A : Type) :=
| Ok (a : A)
| Raise (e : exn).
Arguments Ok {A} a.
Arguments Raise {A} e.

(** What a generator does when it is run to its end: the values it yields,
    in order, and then either [StopIteration] or an exception. *)
Inductive gen (A : Type) :=
| Stop
| Yield (a : A) (rest : gen A)
| Throw (e : exn).
Arguments Stop {A}.
Arguments Yield {A} a rest.
Arguments Throw {A} e.

Fixpoint gen_of_list {A} (l : list A) : gen A :=
  match l with
  | [] => Stop
  | a :: l => Yield a (gen_of_list l)
  end.

Fixpoint gen_map {A B} (f : A → B) (g : gen A) : gen B :=
  match g with
  | Stop => Stop
  | Yield a rest => Yield (f a) (gen_map f rest)
  | Throw e => Throw e
  end.

(** [list(g)] *)
Fixpoint gen_list {A} (g : gen A) : result (list A) :=
  match g with
  | Stop => Ok []
  | Yield a rest =>
      match gen_list rest with
      | Ok l => Ok (a :: l)
      | Raise e => Raise e
      end
  | Throw e => Raise e
  end.

(** The values a generator yields before it ends. *)
Fixpoint gen_yields {A} (g : gen A) : list A :=
  match g with
  | Stop => []
  | Yield a rest => a :: gen_yields rest
  | Throw _ => []
  end.

(** What the typed accessors raise: an exception of the module, or the one
    the interpreter's conversion ([int], [decode], [encode]) raised. *)
Inductive raised (X : Type) :=
| Core (e : exn)
| Conv (x : X).
Arguments Core {X} e.
Arguments Conv {X} x.

Inductive tresult (X A : Type) :=
| TOk (a : A)
| TRaise (e : raised X).
Arguments TOk {X A} a.
Arguments TRaise {X A} e.

Inductive tgen (X A : Type) :=
| TStop
| TYield (a : A) (rest : tgen X A)
| TThrow (e : raised X).
Arguments TStop {X A}.
Arguments TYield {X A} a rest.
Arguments TThrow {X A} e.

(** [(conv(v) for v in g)]: the conversions of what [g] yields, up to the
    first one that raises. *)
Fixpoint tgen_map {X A} (conv : bytes → X + A) (g : gen bytes) : tgen X A :=
  match g with
  | Stop => TStop
  | Yield v rest =>
      match conv v with
      | inr a => TYield a (tgen_map conv rest)
      | inl x => TThrow (Conv x)
      end
  | Throw e => TThrow (Core e)
  end.

Fixpoint tgen_of_list {X A} (l : list A) : tgen X A :=
  match l with
  | [] => TStop
  | a :: l => TYield a (tgen_of_list l)
  end.

(** [xrange(a, b, step)] for [0 < step]. *)
Definition xrange (a b step : Z) : list Z :=
  (λ i, a + step * i) <$> seqZ 0 ((b - a + step - 1) `div` step).

(** ** Hash functions *)

Definition djb_hash (s : bytes) : Z :=
  fold_left (λ h c, Z.land (Z.lxor ((h ≪ 5) + h) (ord c)) 0xffffffff) s 5381.

(** The spec's wording of the same function: every operation modulo 2^32. *)
Definition djb_step_mod32 (h : Z) (c : byte) : Z :=
  Z.lxor ((((h * 2 ^ 5) `mod` 2 ^ 32) + h) `mod` 2 ^ 32) (ord c) `mod` 2 ^ 32.

Definition djb_hash_mod32 (s : bytes) : Z :=
  fold_left djb_step_mod32 s 5381.

(** A hash function object: the interpreter's builtin [hash], or any other
    callable ([djb_hash], a user's function, a lambda).  [fn is hash] holds
    of the first only. *)
Inductive hashfn :=
| Builtin
| Fn (f : bytes → Z).

Definition is_hash (fn : hashfn) : bool :=
  match fn with
  | Builtin => true
  | Fn _ => false
  end.

Definition magic : Z := 841352530.

Section WithBuiltinHash.

(** The builtin [hash] of the platform the module runs on. *)
Variable hash : bytes → Z.

(** [fn(s)] *)
Definition call (fn : hashfn) (s : bytes) : Z :=
  match fn with
  | Builtin => hash s
  | Fn f => f s
  end.

Definition might_mask (fn : hashfn) (_magic : Z) : hashfn :=
  if is_hash fn && negb (hash (b "dave") =? _magic)
  then Fn (λ s, Z.land (call fn s) 0xffffffff)
  else fn.

End WithBuiltinHash.

(** ** The output file

    A seekable file as the writer uses it ([StringIO], or a file opened for
    writing): a buffer and a cursor.  [write] overwrites from the cursor on
    and extends the buffer when it runs past its end; the writer never
    moves the cursor beyond the end of the buffer. *)

Record file := File { buf : bytes; cur : nat }.

Definition write (f : file) (s : bytes) : file :=
  {| buf := take f.(cur) f.(buf) ++ s ++ drop (f.(cur) + List.length s) f.(buf);
     cur := f.(cur) + List.length s |}.

Definition tell (f : file) : Z := Z.of_nat f.(cur).

Definition seek (f : file) (n : nat) : file :=
  {| buf := f.(buf); cur := n |}.

(** [fp.read()] from the start of the file. *)
Definition read (f : file) : bytes := drop f.(cur) f.(buf).

Abbreviation slot := (Z * Z)%type.

(** ** Writer *)

Module Writer.

Record t := Make {
  fp : file;
  hash : bytes → Z;
  _unordered : list (list slot)
}.

Definition _write_tbl (fp : file) (tbl : list slot) : file :=
  fold_left (λ fp pair, write fp (write_2_le4 pair.1 pair.2)) tbl fp.

(** [Writer(fp, hash)]; [builtin] is the platform's builtin [hash]. *)
Definition init (builtin : bytes → Z) (fp : file) (hash : hashfn) : t :=
  {| fp := _write_tbl fp (replicate 256 (0, 0));
     hash := call builtin (might_mask builtin hash magic);
     _unordered := replicate 256 [] |}.

Definition put (self : t) (key value : bytes) : t :=
  let pos := tell self.(fp) in
  let fp := write self.(fp) (write_2_le4 (len key) (len value)) in
  let fp := write fp key in
  let fp := write fp value in
  let h := self.(hash) key in
  {| fp := fp;
     hash := self.(hash);
     _unordered :=
       alter (λ tbl, tbl ++ [(h, pos)]) (Z.to_nat (Z.land h 0xff))
         self.(_unordered) |}.

Definition puts (self : t) (key : bytes) (values : list bytes) : t :=
  fold_left (λ self value, put self key value) values self.

Definition putkey (self : t) (key : bytes) : t := put self key [].

(** [chain(xrange(where, length), xrange(0, where))] *)
Definition probe_order (where_ length : nat) : list nat :=
  seq where_ (length - where_) ++ seq 0 where_.

(** The innermost loop of [finalize]: the first index of [idxs] whose slot
    has a zero hash field receives [pair]; when there is none the loop
    ends without a store. *)
Fixpoint place (ordered : list slot) (idxs : list nat) (pair : slot)
  : list slot :=
  match idxs with
  | [] => ordered
  | idx :: idxs =>
      if (ordered !!! idx).1 =? 0
      then <[idx := pair]> ordered
      else place ordered idxs pair
  end.

(** One round of [for pair in tbl]: the home slot, then the probe. *)
Definition order_step (length : Z) (ordered : list slot) (pair : slot)
  : list slot :=
  let where_ := (pair.1 ≫ 8) `mod` length in
  place ordered (probe_order (Z.to_nat where_) (Z.to_nat length)) pair.

(** The body of [finalize]'s loop over the buckets, for one bucket. *)
Definition order_table (tbl : list slot) : list slot :=
  let length := len tbl ≪ 1 in
  fold_left (order_step length) tbl (replicate (Z.to_nat length) (0, 0)).

Definition finalize (self : t) : t :=
  let '(fp, index) :=
    fold_left
      (λ '(fp, index) tbl,
         let length := len tbl ≪ 1 in
         let ordered := order_table tbl in
         (_write_tbl fp ordered, index ++ [(tell fp, length)]))
      self.(_unordered) (self.(fp), []) in
  {| fp := _write_tbl (seek fp 0) index;
     hash := self.(hash);
     _unordered := self.(_unordered) |}.

(** The typed writers.  [str(value)] and [value.encode(encoding)] belong
    to the interpreter: [str] is taken as a function, [encode] as one that
    gives the bytes or the exception it raises.  A writer is an object
    that [put] changes, so a call that raises still leaves the writer it
    reached: the result is that writer and the exception, if any. *)
Section Typed.

Context {T U Enc X : Type}.
Variable str : T → bytes.
Variable encode : U → Enc → X + bytes.
Variable utf_8 : Enc.

Definition putint (self : t) (key : bytes) (value : T) : t :=
  put self key (str value).

Definition putints (self : t) (key : bytes) (values : list T) : t :=
  puts self key (str <$> values).

Definition putstring (self : t) (key : bytes) (value : U) (encoding : Enc)
  : t * option X :=
  match encode value utf_8 with
  | inr s => (put self key s, None)
  | inl x => (self, Some x)
  end.

(** [puts] over the generator [(value.encode(encoding) for value in
    values)]: each value is encoded when its turn comes. *)
Fixpoint putstrings (self : t) (key : bytes) (values : list U)
    (encoding : Enc) : t * option X :=
  match values with
  | [] => (self, None)
  | value :: values =>
      match encode value encoding with
      | inr s => putstrings (put self key s) key values encoding
      | inl x => (self, Some x)
      end
  end.

End Typed.

End Writer.

(** ** Reader *)

Module Reader.

Record t := Make {
  data : bytes;
  table_start : option Z;
  length : option Z;
  hash : bytes → Z
}.

(** [Reader(fp, hash)] *)
Definition init (builtin : bytes → Z) (fp : file) (hash : hashfn) : result t :=
  let data := read fp in
  if len data <? 2048 then Raise IOError
  else Ok {| data := data;
             table_start := None;
             length := None;
             hash := call builtin (might_mask builtin hash magic) |}.

Definition _get_value (self : t) (pos : Z) (key : bytes)
  : result (option bytes) :=
  match read_2_le4 (slice self.(data) pos (pos + 8)) with
  | None => Raise struct_error
  | Some (klen, dlen) =>
      let pos := pos + 8 in
      if decide (slice self.(data) pos (pos + klen) = key)
      then let pos := pos + klen in
           Ok (Some (slice self.(data) pos (pos + dlen)))
      else Ok None
  end.

(** The 256 header entries, [read_2_le4(self.data[i:i+8])] for [i] in
    [range(0, 2048, 8)]; the first short read raises. *)
Definition header (self : t) : result (list slot) :=
  match mapM (λ i, read_2_le4 (slice self.(data) i (i + 8)))
             (xrange 0 2048 8) with
  | Some l => Ok l
  | None => Raise struct_error
  end.

(** [min] over a sequence that is not empty. *)
Definition min_of (l : list Z) : Z :=
  match l with
  | [] => 0
  | x :: l => fold_left Z.min l x
  end.

(** The [while pos < table_start] loop.  Every round moves [pos] forward
    by at least eight, so [fuel] rounds suffice when
    [table_start - pos <= fuel]. *)
Fixpoint records (data : bytes) (table_start : Z) (fuel : nat) (pos : Z)
  : gen (bytes * bytes) :=
  if pos <? table_start then
    match fuel with
    | O => Stop
    | S fuel =>
        match read_2_le4 (slice data pos (pos + 8)) with
        | None => Throw struct_error
        | Some (klen, dlen) =>
            let pos := pos + 8 in
            let key := slice data pos (pos + klen) in
            let pos := pos + klen in
            let value := slice data pos (pos + dlen) in
            let pos := pos + dlen in
            Yield (key, value) (records data table_start fuel pos)
        end
    end
  else Stop.

(** [iteritems] run to its end: the reader with [table_start] cached, and
    the pairs yielded.  A cached [table_start] of 0 is falsy and is
    computed again. *)
Definition iteritems (self : t) : t * gen (bytes * bytes) :=
  let computed :=
    match header self with
    | Raise e => Raise e
    | Ok hd =>
        let table_start := min_of (hd.*1) in
        Ok ({| data := self.(data);
               table_start := Some table_start;
               length := self.(length);
               hash := self.(hash) |}, table_start)
    end in
  let found :=
    match self.(table_start) with
    | Some table_start =>
        if table_start =? 0 then computed else Ok (self, table_start)
    | None => computed
    end in
  match found with
  | Raise e => (self, Throw e)
  | Ok (self, table_start) =>
      (self, records self.(data) table_start
               (Z.to_nat (table_start - 2048)) 2048)
  end.

Definition iterkeys (self : t) : t * gen bytes :=
  let '(self, g) := iteritems self in (self, gen_map fst g).

Definition itervalues (self : t) : t * gen bytes :=
  let '(self, g) := iteritems self in (self, gen_map snd g).

Definition keys (self : t) : t * result (list bytes) :=
  let '(self, g) := iteritems self in (self, gen_list (gen_map fst g)).

Definition values (self : t) : t * result (list bytes) :=
  let '(self, g) := iteritems self in (self, gen_list (gen_map snd g)).

(** [len(reader)]: the reader with [length] cached, and the number. *)
Definition __len__ (self : t) : t * result Z :=
  match self.(length) with
  | None =>
      match header self with
      | Raise e => (self, Raise e)
      | Ok hd =>
          let length := foldr Z.add 0 (hd.*2) in
          ({| data := self.(data);
              table_start := self.(table_start);
              length := Some length;
              hash := self.(hash) |}, Ok length)
      end
  | Some length => (self, Ok length)
  end.

(** The [for pos in chain(...)] loop of [gets]. *)
Fixpoint probe (self : t) (h : Z) (key : bytes) (poss : list Z) : gen bytes :=
  match poss with
  | [] => Stop
  | pos :: poss =>
      match read_2_le4 (slice self.(data) pos (pos + 8)) with
      | None => Throw struct_error
      | Some (rec_h, rec_pos) =>
          if rec_h =? 0 then Stop
          else if rec_h =? h then
            match _get_value self rec_pos key with
            | Raise e => Throw e
            | Ok (Some value) => Yield value (probe self h key poss)
            | Ok None => probe self h key poss
            end
          else probe self h key poss
      end
  end.

Definition gets (self : t) (key : bytes) : gen bytes :=
  let h := self.(hash) key in
  let idx := Z.land (h ≪ 3) 2047 in
  match read_2_le4 (slice self.(data) idx (idx + 8)) with
  | None => Throw struct_error
  | Some (start, nslots) =>
      if negb (nslots =? 0) then
        let end_ := start + (nslots ≪ 3) in
        let slot_off := start + (((h ≫ 8) `mod` nslots) ≪ 3) in
        probe self h key (xrange slot_off end_ 8 ++ xrange start slot_off 8)
      else Stop
  end.

(** [get(key, default)]: [default = None] is the call without a default
    ([default is UNSPECIFIED]); a default may be any object, so the answer
    is a stored value or the default itself. *)
Definition get {D : Type} (self : t) (key : bytes) (default : option D)
  : result (bytes + D) :=
  match default with
  | None =>
      match gets self key with
      | Yield value _ => Ok (inl value)
      | Stop => Raise (KeyError key)
      | Throw e => Raise e
      end
  | Some d =>
      match gets self key with
      | Yield value _ => Ok (inl value)
      | Stop => Ok (inr d)
      | Throw e => Raise e
      end
  end.

(** [k in reader]: [self.get(k, None) is not None]. *)
Definition __contains__ (self : t) (k : bytes) : result bool :=
  match get self k (Some tt) with
  | Ok (inl _) => Ok true
  | Ok (inr _) => Ok false
  | Raise e => Raise e
  end.

Definition has_key := __contains__.

(** The typed readers.  [int(value, base)] and [value.decode(encoding)]
    belong to the interpreter and give a value or the exception they
    raise. *)
Section Typed.

Context {Xi Xs U Enc : Type}.
Variable int_ : bytes → Z → Xi + Z.
Variable decode : bytes → Enc → Xs + U.

Definition getint {D : Type} (self : t) (key : bytes) (default : option D)
    (base : Z) : tresult Xi (Z + D) :=
  match get self key (Some tt) with
  | Raise e => TRaise (Core e)
  | Ok (inr _) =>
      match default with
      | None => TRaise (Core (KeyError key))
      | Some d => TOk (inr d)
      end
  | Ok (inl value) =>
      match int_ value base with
      | inr n => TOk (inl n)
      | inl x => TRaise (Conv x)
      end
  end.

Definition getints (self : t) (key : bytes) (base : Z) : tgen Xi Z :=
  tgen_map (λ v, int_ v base) (gets self key).

Definition getstring {D : Type} (self : t) (key : bytes)
    (default : option D) (encoding : Enc) : tresult Xs (U + D) :=
  match get self key (Some tt) with
  | Raise e => TRaise (Core e)
  | Ok (inr _) =>
      match default with
      | None => TRaise (Core (KeyError key))
      | Some d => TOk (inr d)
      end
  | Ok (inl value) =>
      match decode value encoding with
      | inr u => TOk (inl u)
      | inl x => TRaise (Conv x)
      end
  end.

Definition getstrings (self : t) (key : bytes) (encoding : Enc)
  : tgen Xs U :=
  tgen_map (λ v, decode v encoding) (gets self key).

End Typed.

End Reader.

(** ** Building and opening an image *)

(** A writer on an empty file, the [put] calls in order, then [finalize]. *)
Definition written (builtin : bytes → Z) (hash : hashfn)
    (items : list (bytes * bytes)) : Writer.t :=
  fold_left (λ w kv, Writer.put w kv.1 kv.2) items
    (Writer.init builtin (File [] 0) hash).

Definition image (builtin : bytes → Z) (hash : hashfn)
    (items : list (bytes * bytes)) : bytes :=
  (Writer.finalize (written builtin hash items)).(Writer.fp).(buf).

(** The file a writer leaves when it is finalized. *)
Definition finished (w : Writer.t) : bytes :=
  (Writer.finalize w).(Writer.fp).(buf).

(** A reader over a byte image ([fp.seek(0)], then [Reader(fp, hash)]). *)
Definition reader (builtin : bytes → Z) (hash : hashfn) (img : bytes)
  : result Reader.t :=
  Reader.init builtin (File img 0) hash.

(** ** The layout of an image, for the statements below *)

(** The bytes [put] appends for one pair. *)
Definition record (kv : bytes * bytes) : bytes :=
  write_2_le4 (len kv.1) (len kv.2) ++ kv.1 ++ kv.2.

(** The pairs with the offsets [put] finds them at, the first at [pos]. *)
Fixpoint layout (pos : Z) (items : list (bytes * bytes))
  : list (Z * (bytes * bytes)) :=
  match items with
  | [] => []
  | kv :: items => (pos, kv) :: layout (pos + len (record kv)) items
  end.

(** The pending entry of a pair. *)
Definition entry (H : bytes → Z) (x : Z * (bytes * bytes)) : slot :=
  (H x.2.1, x.1).

(** The number of the bucket of a hash value. *)
Definition bucket_of (h : Z) : nat := Z.to_nat (Z.land h 0xff).

(** The entries of bucket [i], in order. *)
Definition bucket (i : nat) (es : list slot) : list slot :=
  filter (λ e, bucket_of e.1 = i) es.

(** The bytes [_write_tbl] writes. *)
Definition enc_tbl (tbl : list slot) : bytes :=
  concat ((λ pair, write_2_le4 pair.1 pair.2) <$> tbl).

(** The header entries of tables written one after the other from [pos]. *)
Fixpoint index_from (pos : Z) (tbls : list (list slot)) : list slot :=
  match tbls with
  | [] => []
  | tbl :: tbls =>
      (pos, len tbl ≪ 1) :: index_from (pos + 8 * (len tbl ≪ 1)) tbls
  end.

(** The hash function a writer or reader ends up with. *)
Definition hash_of (builtin : bytes → Z) (hash : hashfn) : bytes → Z :=
  call builtin (might_mask builtin hash magic).

(** A slot whose hash field is not zero. *)
Definition occupied (s : slot) : bool := negb (s.1 =? 0).

(** ** Notions used in the proofs *)

(** What [put] does to the pending lists. *)
Definition add_entry (u : list (list slot)) (e : slot) : list (list slot) :=
  alter (λ tbl, tbl ++ [e]) (bucket_of e.1) u.

(** The pending lists of the 256 buckets. *)
Definition buckets (es : list slot) : list (list slot) :=
  (λ i, bucket i es) <$> seq 0 256.

(** The bytes of the tables [finalize] appends. *)
Definition tables (tbls : list (list slot)) : bytes :=
  concat ((λ tbl, enc_tbl (Writer.order_table tbl)) <$> tbls).

(** [data] holds the bytes [s] from offset [p] on. *)
Definition has (data : bytes) (p : Z) (s : bytes) : Prop :=
  ∃ pre post, data = pre ++ s ++ post ∧ len pre = p.

(** A slot as it reads back: both fields by their low 32 bits. *)
Definition wrap (s : slot) : slot := (s.1 `mod` 2 ^ 32, s.2 `mod` 2 ^ 32).

(** The indices a probe passes before it meets a slot with a zero hash
    field. *)
Fixpoint walked (T : list slot) (idxs : list nat) : list nat :=
  match idxs with
  | [] => []
  | i :: idxs => if occupied (T !!! i) then i :: walked T idxs else []
  end.

(** The home slot of a hash value in a table of [L] slots. *)
Definition home (L : nat) (h : Z) : nat :=
  Z.to_nat ((h ≫ 8) `mod` Z.of_nat L).

(** The slots with hash field [h] that a probe for [h] passes. *)
Definition hits (L : nat) (T : list slot) (h : Z) : list slot :=
  filter (λ s, s.1 = h)
    ((T !!!.) <$> walked T (Writer.probe_order (home L h) L)).

(** Every occupied slot is reached by the probe for its own hash: the
    slots from its home to it are all occupied. *)
Definition chained (L : nat) (T : list slot) : Prop :=
  length T = L ∧
  ∀ j s, T !! j = Some s → occupied s = true →
         j ∈ walked T (Writer.probe_order (home L s.1) L).

(** The values put under [key], in order. *)
Definition values_of (key : bytes) (items : list (bytes * bytes))
  : list bytes :=
  snd <$> filter (λ kv, kv.1 = key) items.

(** What [_get_value] answers at a record. *)
Definition match_value (key : bytes) (x : Z * (bytes * bytes))
  : option bytes :=
  if decide (x.2.1 = key) then Some x.2.2 else None.

(** The table of a bucket before its [i]-th pending entry is placed. *)
Definition placed (tbl : list slot) (i : nat) : list slot :=
  let length := len tbl ≪ 1 in
  fold_left (Writer.order_step length) (take i tbl)
    (replicate (Z.to_nat length) (0, 0)).

(** ** Concrete databases *)

(** A platform whose builtin [hash] needs no mask.  The databases below
    are built with [djb_hash] or a constant function, which [might_mask]
    leaves alone whatever the platform. *)
Definition builtin32 : bytes → Z := λ s, if decide (s = b "dave") then magic else 0.

(** The database of the module's own tests. *)
Definition dave_items : list (bytes * bytes) :=
  ((λ i, (b "dave", [chr (48 + i)])) <$> seqZ 0 10) ++
  [(b "dave_no_dups", b "1")].

(** A key that [djb_hash] sends to zero, put twice. *)
Definition zero_key : bytes := b "vpbzfti".

Definition zero_items : list (bytes * bytes) :=
  [(zero_key, b "a"); (zero_key, b "c")].

(** The pending entries of the bucket of "dave" in that database. *)
Definition dave_bucket : list slot :=
  bucket (bucket_of (djb_hash (b "dave")))
    (entry djb_hash <$> layout 2048 dave_items).

(** The pending entries of bucket 0 when [zero_items] are put. *)
Definition zero_bucket : list slot := [(0, 2048); (0, 2064)].

(** A builtin [hash] as a 64-bit platform has it: wider than 32 bits and
    negative for some strings. *)
Definition builtin64 : bytes → Z := λ s, djb_hash s * 2 ^ 31 - 2 ^ 62.

(** Header entries whose tables lie one after the other from [pos] to
    [end_]. *)
Fixpoint laid_from (pos : Z) (hd : list slot) (end_ : Z) : Prop :=
  match hd with
  | [] => pos = end_
  | (off, n) :: hd => off = pos ∧ 0 ≤ n ∧ laid_from (pos + 8 * n) hd end_
  end.

(** ** Conversions for closed examples

    Stand-ins for the interpreter's [str], [int], [encode] and [decode] on
    the inputs the examples use: integers written in decimal, and text of
    code points below U+0800 in UTF-8 or below U+0100 in Latin-1. *)

Definition str_int (n : Z) : bytes :=
  list_byte_of_string (NilZero.string_of_int (Z.to_int n)).

Definition int_decimal (s : bytes) (base : Z) : unit + Z :=
  match NilZero.int_of_string (string_of_list_byte s) with
  | Some d => inr (Z.of_int d)
  | None => inl tt
  end.

Inductive encoding := utf_8 | latin_1.

Definition encode_point (e : encoding) (c : Z) : option bytes :=
  match e with
  | utf_8 =>
      if (0 <=? c) && (c <? 128) then Some [chr c]
      else if (128 <=? c) && (c <? 2048)
      then Some [chr (Z.lor 0xC0 (c ≫ 6)); chr (Z.lor 0x80 (Z.land c 0x3F))]
      else None
  | latin_1 => if (0 <=? c) && (c <? 256) then Some [chr c] else None
  end.

Fixpoint encode_text (u : list Z) (e : encoding) : unit + bytes :=
  match u with
  | [] => inr []
  | c :: u =>
      match encode_point e c, encode_text u e with
      | Some s, inr t => inr (s ++ t)
      | _, _ => inl tt
      end
  end.

Fixpoint decode_utf_8 (s : bytes) : option (list Z) :=
  match s with
  | [] => Some []
  | c :: s' =>
      if ord c <? 128 then cons (ord c) <$> decode_utf_8 s'
      else
        match s' with
        | d :: s'' =>
            if (0xC2 <=? ord c) && (ord c <? 0xE0)
               && (0x80 <=? ord d) && (ord d <? 0xC0)
            then cons (Z.lor (Z.land (ord c) 0x1F ≪ 6) (Z.land (ord d) 0x3F))
                   <$> decode_utf_8 s''
            else None
        | [] => None
        end
  end.

Definition decode_text (s : bytes) (e : encoding) : unit + list Z :=
  match e with
  | utf_8 =>
      match decode_utf_8 s with
      | Some u => inr u
      | None => inl tt
      end
  | latin_1 => inr (ord <$> s)
  end.

(** "caf\u00e9" *)
Definition cafe : list Z := [99; 97; 102; 233].

(** "caf\\u00e9" in UTF-8. *)
Definition cafe_utf_8 : bytes := [chr 99; chr 97; chr 102; chr 0xC3; chr 0xA9].

(** The tests' database with the zero-hash key put first. *)
Definition mixed_items : list (bytes * bytes) := zero_items ++ dave_items.

(** A bucket with an entry of hash zero between two others. *)
Definition mixed_bucket : list slot := [(1024, 2048); (0, 2060); (1024, 2072)].

(** * Proofs

    ** Packing and the output file *)

Lemma ord_range c : 0 ≤ ord c < 256.
Proof. unfold ord. pose proof (Byte.to_N_bounded c). lia. Qed.

Lemma ord_chr n : ord (chr n) = n `mod` 256.
Proof.
  unfold chr, ord. pose proof (Z.mod_pos_bound n 256 eq_refl) as Hb.
  destruct (Byte.of_N _) as [c|] eqn:E.
  - apply Byte.to_of_N in E. rewrite E. lia.
  - apply Byte.of_N_None_iff in E. lia.
Qed.

Lemma un_le4_le4 n :
  un_le4 (chr n) (chr (n ≫ 8)) (chr (n ≫ 16)) (chr (n ≫ 24)) = n `mod` 2 ^ 32.
Proof.
  unfold un_le4. rewrite !ord_chr.
  change 256 with (2 ^ 8).
  apply Z.bits_inj'; intros i Hi.
  rewrite !Z.lor_spec. do 3 rewrite Z.shiftl_spec by lia.
  rewrite !Z.testbit_mod_pow2 by lia.
  repeat match goal with
  | |- context [?a <? ?b] => destruct (Z.ltb_spec a b); try lia
  end; simpl;
  repeat match goal with
  | |- context [Z.testbit (?a ≫ ?k) ?j] =>
      first [ rewrite (Z.testbit_neg_r (a ≫ k) j) by lia
            | rewrite (Z.shiftr_spec a k j) by lia ]
  end;
  rewrite ?orb_false_r; try reflexivity; f_equal; lia.
Qed.

Lemma read_write_2_le4 x y :
  read_2_le4 (write_2_le4 x y) = Some (x `mod` 2 ^ 32, y `mod` 2 ^ 32).
Proof. unfold write_2_le4, le4; simpl. by rewrite !un_le4_le4. Qed.

Lemma length_write_2_le4 x y : length (write_2_le4 x y) = 8%nat.
Proof. reflexivity. Qed.

Lemma enc_tbl_cons p tbl :
  enc_tbl (p :: tbl) = write_2_le4 p.1 p.2 ++ enc_tbl tbl.
Proof. reflexivity. Qed.

Lemma length_enc_tbl tbl : length (enc_tbl tbl) = (8 * length tbl)%nat.
Proof.
  induction tbl as [|p tbl IH]; [done|].
  rewrite enc_tbl_cons, length_app, IH, length_write_2_le4. simpl. lia.
Qed.

Lemma enc_tbl_app t1 t2 : enc_tbl (t1 ++ t2) = enc_tbl t1 ++ enc_tbl t2.
Proof. unfold enc_tbl. by rewrite fmap_app, concat_app. Qed.

(** *** Writing to the file *)

Lemma write_nil f : (f.(cur) ≤ length f.(buf))%nat → write f [] = f.
Proof.
  destruct f as [d c]; unfold write; simpl; intros Hc.
  rewrite Nat.add_0_r, take_drop. done.
Qed.

Lemma take_app_2 {A} (a s r : list A) :
  take (length a + length s) (a ++ s ++ r) = a ++ s.
Proof.
  rewrite (assoc_L (++)). apply take_app_length'. by rewrite length_app.
Qed.

Lemma drop_app_2 {A} (a s r : list A) n :
  drop (length a + length s + n) (a ++ s ++ r) = drop n r.
Proof.
  rewrite (assoc_L (++)), <- drop_drop.
  by rewrite drop_app_length' by by rewrite length_app.
Qed.

Lemma write_app f s1 s2 :
  (f.(cur) ≤ length f.(buf))%nat →
  write (write f s1) s2 = write f (s1 ++ s2).
Proof.
  destruct f as [d c]; unfold write; simpl; intros Hc.
  assert (length (take c d) = c) as Ht by (rewrite length_take; lia).
  f_equal; [|rewrite length_app; lia].
  rewrite <- Ht at 1 4. rewrite take_app_2, drop_app_2, drop_drop.
  rewrite <- !(assoc_L (++)), length_app.
  do 4 f_equal. lia.
Qed.

Lemma write_cur_le f s :
  (f.(cur) ≤ length f.(buf))%nat →
  ((write f s).(cur) ≤ length (write f s).(buf))%nat.
Proof.
  destruct f as [d c]; unfold write; simpl; intros Hc.
  rewrite !length_app, length_take, length_drop. lia.
Qed.

Lemma write_end d s :
  write (File d (length d)) s = File (d ++ s) (length (d ++ s)).
Proof.
  unfold write; simpl. rewrite firstn_all, drop_ge by lia.
  by rewrite app_nil_r, length_app.
Qed.

Lemma write_tbl_write f tbl :
  (f.(cur) ≤ length f.(buf))%nat →
  Writer._write_tbl f tbl = write f (enc_tbl tbl).
Proof.
  unfold Writer._write_tbl. revert f.
  induction tbl as [|p tbl IH]; intros f Hc.
  - simpl. by rewrite write_nil.
  - rewrite enc_tbl_cons, <- write_app by done. cbn [fold_left].
    apply IH. by apply write_cur_le.
Qed.

(** *** The writer before [finalize] *)

Lemma put_end d H u k v :
  Writer.put (Writer.Make (File d (length d)) H u) k v =
  Writer.Make (File (d ++ record (k, v)) (length (d ++ record (k, v)))) H
    (add_entry u (H k, len d)).
Proof.
  unfold Writer.put, record; cbn [Writer.fp Writer.hash Writer._unordered fst snd].
  unfold tell; cbn [cur]. rewrite !write_end.
  by rewrite <- !(assoc_L (++)).
Qed.

Lemma len_app {A} (l1 l2 : list A) : len (l1 ++ l2) = len l1 + len l2.
Proof. unfold len. rewrite length_app. lia. Qed.

Lemma fold_put items : ∀ d H u,
  fold_left (λ w kv, Writer.put w kv.1 kv.2) items
    (Writer.Make (File d (length d)) H u) =
  Writer.Make
    (File (d ++ concat (record <$> items))
          (length (d ++ concat (record <$> items)))) H
    (fold_left add_entry (entry H <$> layout (len d) items) u).
Proof.
  induction items as [|[k v] items IH]; intros d H u.
  - simpl. by rewrite app_nil_r.
  - cbn [fold_left fst snd]. rewrite put_end, IH.
    cbn [fmap list_fmap concat layout entry fst snd fold_left].
    rewrite len_app, <- (assoc_L (++)). done.
Qed.

Lemma lookup_fold_add_entry es : ∀ u i,
  fold_left add_entry es u !! i = (λ tbl, tbl ++ bucket i es) <$> u !! i.
Proof.
  induction es as [|e es IH]; intros u i.
  - unfold bucket. rewrite filter_nil. simpl.
    destruct (u !! i); simpl; [|done]. by rewrite app_nil_r.
  - cbn [fold_left]. rewrite IH. unfold add_entry at 1, bucket.
    rewrite filter_cons.
    destruct (decide (bucket_of e.1 = i)) as [->|Hne].
    + rewrite list_lookup_alter, decide_True by done.
      destruct (u !! _); simpl; [|done].
      by rewrite <- (assoc_L (++)).
    + by rewrite list_lookup_alter_ne.
Qed.

Lemma length_fold_add_entry es : ∀ u,
  length (fold_left add_entry es u) = length u.
Proof.
  induction es as [|e es IH]; intros u; simpl; [done|].
  rewrite IH. unfold add_entry. by rewrite length_alter.
Qed.

Lemma fold_add_entry_buckets es :
  fold_left add_entry es (replicate 256 []) = buckets es.
Proof.
  apply list_eq; intros i. rewrite lookup_fold_add_entry. unfold buckets.
  rewrite list_lookup_fmap.
  destruct (decide (i < 256)%nat) as [Hi|Hi].
  - rewrite lookup_replicate_2 by done. by rewrite lookup_seq_lt.
  - rewrite (proj1 (lookup_replicate_None _ _ _)) by lia.
    by rewrite lookup_seq_ge by lia.
Qed.

(** *** [finalize] *)

Lemma length_place idxs : ∀ ordered pair,
  length (Writer.place ordered idxs pair) = length ordered.
Proof.
  induction idxs as [|i idxs IH]; intros ordered pair; simpl; [done|].
  destruct (_ =? 0); [by rewrite length_insert|apply IH].
Qed.

Lemma length_fold_order_step L tbl : ∀ ordered,
  length (fold_left (Writer.order_step L) tbl ordered) = length ordered.
Proof.
  induction tbl as [|p tbl IH]; intros ordered; simpl; [done|].
  rewrite IH. apply length_place.
Qed.

Lemma shiftl_1 n : n ≪ 1 = 2 * n.
Proof. rewrite Z.shiftl_mul_pow2 by lia. lia. Qed.

Lemma length_order_table tbl :
  length (Writer.order_table tbl) = (2 * length tbl)%nat.
Proof.
  unfold Writer.order_table. rewrite length_fold_order_step, length_replicate.
  rewrite shiftl_1. unfold len. lia.
Qed.

Lemma finalize_fold tbls : ∀ d ix,
  fold_left
    (λ '(fp, index) tbl,
       let length := len tbl ≪ 1 in
       let ordered := Writer.order_table tbl in
       (Writer._write_tbl fp ordered, index ++ [(tell fp, length)]))
    tbls (File d (length d), ix) =
  (File (d ++ tables tbls) (length (d ++ tables tbls)),
   ix ++ index_from (len d) tbls).
Proof.
  induction tbls as [|tbl tbls IH]; intros d ix.
  - simpl. by rewrite !app_nil_r.
  - cbn [fold_left]. rewrite write_tbl_write by done. rewrite write_end, IH.
    unfold tables; cbn [fmap list_fmap concat index_from].
    rewrite <- !(assoc_L (++)). unfold tell; cbn [cur].
    do 3 f_equal. rewrite len_app. unfold len at 2.
    rewrite length_enc_tbl, length_order_table, shiftl_1. unfold len.
    f_equal. lia.
Qed.

Lemma length_index_from tbls : ∀ pos,
  length (index_from pos tbls) = length tbls.
Proof. induction tbls; intros; simpl; [done|by f_equal]. Qed.

Lemma image_shape builtin fn items :
  let H := hash_of builtin fn in
  let recs := concat (record <$> items) in
  let tbls := buckets (entry H <$> layout 2048 items) in
  image builtin fn items =
  enc_tbl (index_from (2048 + len recs) tbls) ++ recs ++ tables tbls.
Proof.
  intros H recs tbls. unfold image, written, Writer.init.
  rewrite write_tbl_write by (simpl; lia).
  set (hdr := enc_tbl (replicate 256 (0, 0))).
  assert (length hdr = 2048%nat) as Hhdr
    by (unfold hdr; by rewrite length_enc_tbl, length_replicate).
  change (write (File [] 0) hdr) with (File hdr (0 + length hdr)).
  rewrite Nat.add_0_l, fold_put, fold_add_entry_buckets.
  unfold Writer.finalize; cbn [Writer.fp Writer._unordered Writer.hash].
  fold H. replace (len hdr) with 2048 by (unfold len; lia). fold recs tbls.
  rewrite finalize_fold. cbn [Writer.fp buf].
  rewrite write_tbl_write by (simpl; lia).
  unfold write, seek; cbn [buf cur]. rewrite take_0. cbn [app].
  rewrite Nat.add_0_l, length_enc_tbl, length_index_from.
  unfold tbls at 2, buckets. rewrite length_fmap, length_seq.
  rewrite <- (assoc_L (++)), drop_app_length' by done.
  rewrite len_app. by replace (len hdr) with 2048 by (unfold len; lia).
Qed.

(** *** Bytes at an offset *)

Lemma len_nonneg {A} (l : list A) : 0 ≤ len l.
Proof. unfold len. lia. Qed.

Lemma has_slice data p s : has data p s → slice data p (p + len s) = s.
Proof.
  intros (pre & post & -> & <-). unfold slice, len.
  rewrite Nat2Z.id, drop_app_length.
  replace (Z.to_nat _) with (length s) by lia.
  by rewrite take_app_length.
Qed.

Lemma has_here s post : has (s ++ post) 0 s.
Proof. by exists [], post. Qed.

Lemma has_app_l data p s1 s2 : has data p (s1 ++ s2) → has data p s1.
Proof.
  intros (pre & post & -> & <-). exists pre, (s2 ++ post).
  by rewrite <- (assoc_L (++)).
Qed.

Lemma has_app_r data p s1 s2 :
  has data p (s1 ++ s2) → has data (p + len s1) s2.
Proof.
  intros (pre & post & -> & <-). exists (pre ++ s1), post.
  rewrite <- !(assoc_L (++)), len_app. done.
Qed.

Lemma has_skip pre p data s : has data p s → has (pre ++ data) (len pre + p) s.
Proof.
  intros (pre' & post & -> & <-). exists (pre ++ pre'), post.
  by rewrite <- !(assoc_L (++)), len_app.
Qed.

Lemma has_enc_tbl data p tbl i s :
  has data p (enc_tbl tbl) → tbl !! i = Some s →
  has data (p + 8 * Z.of_nat i) (write_2_le4 s.1 s.2).
Proof.
  revert p i. induction tbl as [|x tbl IH]; intros p i Hd Hi; [done|].
  rewrite enc_tbl_cons in Hd. destruct i as [|i]; simpl in Hi.
  - injection Hi as ->. replace (p + _) with p by lia.
    by eapply has_app_l.
  - apply has_app_r in Hd. apply (IH _ i) in Hd; [|done].
    replace (p + 8 * Z.of_nat (S i)) with
      (p + len (write_2_le4 x.1 x.2) + 8 * Z.of_nat i); [done|].
    unfold len. rewrite length_write_2_le4. lia.
Qed.

Lemma read_has data p x y :
  has data p (write_2_le4 x y) →
  read_2_le4 (slice data p (p + 8)) = Some (wrap (x, y)).
Proof.
  intros Hd. apply has_slice in Hd. unfold len in Hd.
  rewrite length_write_2_le4 in Hd. change (Z.of_nat 8) with 8 in Hd.
  rewrite Hd. apply read_write_2_le4.
Qed.

Lemma read_slot data p tbl i s :
  has data p (enc_tbl tbl) → tbl !! i = Some s →
  read_2_le4 (slice data (p + 8 * Z.of_nat i) (p + 8 * Z.of_nat i + 8))
  = Some (wrap s).
Proof.
  intros Hd Hi. destruct s as [x y].
  by apply read_has, (has_enc_tbl _ _ _ _ _ Hd Hi).
Qed.

Lemma has_record data p items x :
  has data p (concat (record <$> items)) → x ∈ layout p items →
  has data x.1 (record x.2).
Proof.
  revert p. induction items as [|kv items IH]; intros p Hd Hx;
    cbn [fmap list_fmap concat layout] in *.
  - by apply elem_of_nil in Hx.
  - apply elem_of_cons in Hx as [->|Hx].
    + cbn [fst snd]. by eapply has_app_l.
    + apply has_app_r in Hd. by eapply IH.
Qed.

Lemma wrap_id x y :
  0 ≤ x < 2 ^ 32 → 0 ≤ y < 2 ^ 32 → wrap (x, y) = (x, y).
Proof. intros. unfold wrap; simpl. by rewrite !Z.mod_small. Qed.

(** What the reader finds where a record is. *)
Lemma record_read data p k v :
  has data p (record (k, v)) → len k < 2 ^ 32 → len v < 2 ^ 32 →
  read_2_le4 (slice data p (p + 8)) = Some (len k, len v) ∧
  slice data (p + 8) (p + 8 + len k) = k ∧
  slice data (p + 8 + len k) (p + 8 + len k + len v) = v.
Proof.
  unfold record; cbn [fst snd]. intros Hd Hk Hv.
  pose proof (len_nonneg k). pose proof (len_nonneg v).
  split; [|split].
  - apply has_app_l, read_has in Hd. by rewrite wrap_id in Hd.
  - apply has_app_r, has_app_l in Hd. by apply has_slice in Hd.
  - apply has_app_r, has_app_r in Hd. apply has_slice in Hd.
    unfold len in Hd at 1. by rewrite length_write_2_le4 in Hd.
Qed.

(** *** The header of an image *)

Lemma xrange_header : xrange 0 2048 8 = (λ i, 8 * Z.of_nat i) <$> seq 0 256.
Proof. reflexivity. Qed.

Lemma header_read self ix rest :
  Reader.data self = enc_tbl ix ++ rest → length ix = 256%nat →
  Reader.header self = Ok (wrap <$> ix).
Proof.
  intros Hd Hl. unfold Reader.header.
  replace (mapM _ _) with (Some (wrap <$> ix)); [done|].
  symmetry. apply mapM_Some. rewrite xrange_header.
  apply Forall2_fmap_2, Forall2_same_length_lookup_2.
  { by rewrite length_seq. }
  intros i j s Hj Hs. apply lookup_seq in Hj as [-> _]. simpl.
  pose proof (read_slot (Reader.data self) 0 ix i s) as Hr.
  simpl in Hr. apply Hr; [rewrite Hd; apply has_here|done].
Qed.

Lemma len_tables_cons tbl tbls :
  len (tables (tbl :: tbls)) = 8 * (len tbl ≪ 1) + len (tables tbls).
Proof.
  unfold tables; cbn [fmap list_fmap concat]. rewrite len_app. f_equal.
  unfold len. rewrite length_enc_tbl, length_order_table, shiftl_1. lia.
Qed.

Lemma index_from_bounds tbls : ∀ pos,
  Forall (λ e, pos ≤ e.1 ∧ 0 ≤ e.2 ∧ e.1 + 8 * e.2 ≤ pos + len (tables tbls))
    (index_from pos tbls).
Proof.
  induction tbls as [|tbl tbls IH]; intros pos; [constructor|].
  cbn [index_from]. rewrite len_tables_cons.
  pose proof (len_nonneg tbl). pose proof (len_nonneg (tables tbls)).
  rewrite shiftl_1. constructor; [simpl; lia|].
  eapply Forall_impl; [apply IH|]. simpl. intros e ?. lia.
Qed.

Lemma wrap_index_from tbls pos :
  0 ≤ pos → pos + len (tables tbls) < 2 ^ 32 →
  wrap <$> index_from pos tbls = index_from pos tbls.
Proof.
  intros Hp Hb. rewrite <- (list_fmap_id (index_from _ _)) at 2.
  apply Forall_fmap_ext_1.
  eapply Forall_impl; [apply index_from_bounds|].
  intros [x y]; simpl. intros ?. apply wrap_id; lia.
Qed.

Lemma min_of_index_from tbl tbls pos :
  Reader.min_of ((index_from pos (tbl :: tbls)).*1) = pos.
Proof.
  cbn [index_from fmap list_fmap Reader.min_of fst].
  pose proof (index_from_bounds tbls (pos + 8 * (len tbl ≪ 1))) as Hb.
  pose proof (len_nonneg tbl). rewrite shiftl_1 in *.
  assert (Forall (λ x, pos ≤ x) ((index_from (pos + 8 * (2 * len tbl)) tbls).*1))
    as Hge.
  { apply Forall_fmap. eapply Forall_impl; [apply Hb|]. simpl. lia. }
  clear Hb. revert Hge. generalize ((index_from (pos + 8 * (2 * len tbl)) tbls).*1).
  intros l. induction 1 as [|x l Hx _ IH]; simpl; [done|].
  by rewrite Z.min_l.
Qed.

(** *** The record region *)

Lemma len_record k v : len (record (k, v)) = 8 + len k + len v.
Proof.
  unfold record; cbn [fst snd]. rewrite !len_app. unfold len at 1.
  rewrite length_write_2_le4. lia.
Qed.

Lemma len_records_cons kv items :
  len (concat (record <$> kv :: items)) =
  len (record kv) + len (concat (record <$> items)).
Proof. cbn [fmap list_fmap concat]. apply len_app. Qed.

Lemma records_scan data items : ∀ p fuel,
  has data p (concat (record <$> items)) →
  len (concat (record <$> items)) < 2 ^ 32 →
  len (concat (record <$> items)) ≤ Z.of_nat fuel →
  Reader.records data (p + len (concat (record <$> items))) fuel p =
  gen_of_list items.
Proof.
  induction items as [|[k v] items IH]; intros p fuel Hd Hsz Hfuel.
  - change (len (concat _)) with 0. rewrite Z.add_0_r.
    destruct fuel; simpl; by rewrite Z.ltb_irrefl.
  - rewrite len_records_cons in *. rewrite len_record in *.
    pose proof (len_nonneg k). pose proof (len_nonneg v).
    pose proof (len_nonneg (concat (record <$> items))).
    destruct fuel as [|fuel]; [lia|]. cbn [Reader.records].
    destruct (Z.ltb_spec p (p + (8 + len k + len v + len (concat (record <$> items)))));
      [|lia].
    cbn [fmap list_fmap concat] in Hd.
    destruct (record_read data p k v) as (-> & -> & ->);
      [by eapply has_app_l|lia|lia|].
    cbn [gen_of_list]. f_equal.
    apply has_app_r in Hd. rewrite len_record in Hd.
    rewrite <- (IH (p + (8 + len k + len v)) fuel) by (done || lia).
    f_equal; lia.
Qed.

(** The loop never stops for want of fuel: with [table_start - pos] rounds
    allowed, allowing more changes nothing. *)
Lemma un_le4_nonneg b0 b1 b2 b3 : 0 ≤ un_le4 b0 b1 b2 b3.
Proof.
  unfold un_le4.
  pose proof (ord_range b0). pose proof (ord_range b1).
  pose proof (ord_range b2). pose proof (ord_range b3).
  repeat (apply Z.lor_nonneg; split); try apply Z.shiftl_nonneg; lia.
Qed.

Lemma read_2_le4_nonneg s x y : read_2_le4 s = Some (x, y) → 0 ≤ x ∧ 0 ≤ y.
Proof.
  unfold read_2_le4.
  repeat (destruct s as [|? s]; try discriminate).
  intros [= <- <-]. split; apply un_le4_nonneg.
Qed.

Lemma records_fuel data table_start fuel : ∀ pos fuel',
  table_start - pos ≤ Z.of_nat fuel → (fuel ≤ fuel')%nat →
  Reader.records data table_start fuel' pos =
  Reader.records data table_start fuel pos.
Proof.
  induction fuel as [|fuel IH]; intros pos fuel' Hf Hle.
  - destruct fuel'; simpl; destruct (Z.ltb_spec pos table_start); done || lia.
  - destruct fuel' as [|fuel']; [lia|]. cbn [Reader.records].
    destruct (Z.ltb_spec pos table_start); [|done].
    destruct (read_2_le4 _) as [[klen dlen]|] eqn:Hr; [|done].
    apply read_2_le4_nonneg in Hr. f_equal. apply IH; lia.
Qed.

(** *** Buckets *)

Lemma land_255 h : Z.land h 0xff = h `mod` 256.
Proof. change 0xff with (Z.ones 8). by rewrite Z.land_ones. Qed.

Lemma bucket_of_lt h : (bucket_of h < 256)%nat.
Proof.
  unfold bucket_of. rewrite land_255.
  pose proof (Z.mod_pos_bound h 256). lia.
Qed.

Lemma bucket_of_mod h (i : nat) : bucket_of h = i ↔ h `mod` 256 = Z.of_nat i.
Proof.
  unfold bucket_of. rewrite land_255.
  pose proof (Z.mod_pos_bound h 256). lia.
Qed.

Lemma length_concat_buckets_cons e es (idxs : list nat) :
  NoDup idxs →
  length (concat ((λ i, bucket i (e :: es)) <$> idxs)) =
  ((if decide (bucket_of e.1 ∈ idxs) then 1 else 0) +
   length (concat ((λ i, bucket i es) <$> idxs)))%nat.
Proof.
  induction 1 as [|i idxs Hi Hnd IH]; [done|].
  cbn [fmap list_fmap concat]. rewrite !length_app, IH.
  unfold bucket at 1. rewrite filter_cons. fold (bucket i es).
  destruct (decide (bucket_of e.1 = i)) as [<-|Hne].
  - rewrite (decide_False (P := bucket_of e.1 ∈ idxs)) by done.
    rewrite decide_True by left. simpl. lia.
  - destruct (decide (bucket_of e.1 ∈ idxs)).
    + rewrite decide_True by by right. lia.
    + rewrite decide_False; [lia|]. intros [?|?]%elem_of_cons; done.
Qed.

Lemma length_concat_buckets es : length (concat (buckets es)) = length es.
Proof.
  unfold buckets. induction es as [|e es IH].
  - by induction (seq 0 256).
  - rewrite length_concat_buckets_cons by apply NoDup_seq.
    rewrite IH, decide_True; [done|].
    apply elem_of_seq. pose proof (bucket_of_lt e.1). lia.
Qed.

Lemma sum_index_from tbls : ∀ pos,
  foldr Z.add 0 ((index_from pos tbls).*2) = 2 * len (concat tbls).
Proof.
  induction tbls as [|tbl tbls IH]; intros pos; [done|].
  cbn [index_from fmap list_fmap foldr snd concat].
  rewrite IH, len_app, shiftl_1. lia.
Qed.

Lemma length_layout items : ∀ p, length (layout p items) = length items.
Proof. induction items; intros; simpl; [done|by f_equal]. Qed.

Lemma length_bucket_entries H items (i : nat) : ∀ p,
  length (bucket i (entry H <$> layout p items)) =
  length (filter (λ kv, H kv.1 `mod` 256 = Z.of_nat i) items).
Proof.
  unfold bucket. induction items as [|[k v] items IH]; intros p; [done|].
  cbn [layout fmap list_fmap]. rewrite !filter_cons.
  cbn [entry fst snd]. specialize (IH (p + len (record (k, v)))).
  destruct (decide (bucket_of (H k) = i)) as [Hb|Hb].
  - rewrite decide_True by by apply bucket_of_mod. simpl. by rewrite IH.
  - rewrite decide_False by by rewrite <- bucket_of_mod. by rewrite IH.
Qed.

Lemma index_from_lookup tbls : ∀ pos i tbl,
  tbls !! i = Some tbl →
  ∃ off, index_from pos tbls !! i = Some (off, len tbl ≪ 1).
Proof.
  induction tbls as [|t tbls IH]; intros pos i tbl Hi; [done|].
  destruct i as [|i]; simpl in *.
  - injection Hi as ->. by eexists.
  - by eapply IH.
Qed.

(** *** Images *)

Lemma length_buckets es : length (buckets es) = 256%nat.
Proof. unfold buckets. by rewrite length_fmap, length_seq. Qed.

Lemma reader_ok builtin fn img :
  2048 ≤ len img →
  reader builtin fn img = Ok (Reader.Make img None None (hash_of builtin fn)).
Proof.
  intros Hl. unfold reader, Reader.init, read; cbn [cur buf]. rewrite drop_0.
  destruct (Z.ltb_spec (len img) 2048); [lia|reflexivity].
Qed.

Lemma len_image builtin fn items :
  let H := hash_of builtin fn in
  let recs := concat (record <$> items) in
  let tbls := buckets (entry H <$> layout 2048 items) in
  len (image builtin fn items) = 2048 + len recs + len (tables tbls).
Proof.
  intros H recs tbls. rewrite image_shape. fold H recs tbls.
  rewrite !len_app. unfold len at 1.
  rewrite length_enc_tbl, length_index_from. unfold tbls.
  rewrite length_buckets. lia.
Qed.

(** The sizes of the parts of an image, for [lia]. *)
Ltac image_size builtin fn items :=
  let Hlen := fresh "Hlen" in
  pose proof (len_image builtin fn items) as Hlen; cbv zeta in Hlen;
  pose proof (len_nonneg (concat (record <$> items)));
  pose proof (len_nonneg
                (tables (buckets (entry (hash_of builtin fn) <$>
                                    layout 2048 items)))).

Lemma header_image builtin fn items r :
  let H := hash_of builtin fn in
  let recs := concat (record <$> items) in
  let tbls := buckets (entry H <$> layout 2048 items) in
  len (image builtin fn items) < 2 ^ 32 →
  Reader.data r = image builtin fn items →
  Reader.header r = Ok (index_from (2048 + len recs) tbls).
Proof.
  intros H recs tbls Hsz Hd. rewrite len_image in Hsz. fold H recs tbls in Hsz.
  pose proof (len_nonneg recs).
  rewrite image_shape in Hd. fold H recs tbls in Hd.
  erewrite header_read; [|exact Hd|].
  - rewrite wrap_index_from; [done|lia|lia].
  - unfold tbls. by rewrite length_index_from, length_buckets.
Qed.

Lemma has_records_image builtin fn items :
  has (image builtin fn items) 2048 (concat (record <$> items)).
Proof.
  rewrite image_shape. eexists _, _. split; [done|].
  unfold len. rewrite length_enc_tbl, length_index_from, length_buckets. done.
Qed.

Lemma gen_list_of_list {A} (l : list A) : gen_list (gen_of_list l) = Ok l.
Proof. induction l as [|a l IH]; simpl; [done|by rewrite IH]. Qed.

Lemma gen_map_of_list {A B} (f : A → B) (l : list A) :
  gen_map f (gen_of_list l) = gen_of_list (f <$> l).
Proof. induction l as [|a l IH]; simpl; [done|by rewrite IH]. Qed.

Lemma min_of_index_buckets es pos :
  Reader.min_of ((index_from pos (buckets es)).*1) = pos.
Proof.
  pose proof (length_buckets es) as Hl.
  destruct (buckets es); [done|apply min_of_index_from].
Qed.

Lemma iteritems_image builtin fn items r :
  reader builtin fn (image builtin fn items) = Ok r →
  len (image builtin fn items) < 2 ^ 32 →
  ∃ hd,
    Reader.header r = Ok hd ∧
    Reader.table_start (Reader.iteritems r).1 = Some (Reader.min_of (hd.*1)) ∧
    Reader.min_of (hd.*1) = 2048 + len (concat (record <$> items)) ∧
    (Reader.iteritems r).2 = gen_of_list items.
Proof.
  intros Hr Hsz. pose proof (len_image builtin fn items) as Hlen.
  cbv zeta in Hlen.
  set (recs := concat (record <$> items)) in *.
  set (tbls := buckets (entry (hash_of builtin fn) <$> layout 2048 items)) in *.
  pose proof (len_nonneg recs). pose proof (len_nonneg (tables tbls)).
  rewrite reader_ok in Hr by lia. injection Hr as <-.
  eexists. split; [by apply header_image|].
  unfold Reader.iteritems; cbn [Reader.table_start].
  rewrite (header_image builtin fn items) by done. fold recs tbls.
  assert (Reader.min_of ((index_from (2048 + len recs) tbls).*1)
          = 2048 + len recs) as Hmin by apply min_of_index_buckets.
  cbn [fst snd Reader.table_start Reader.data]. rewrite !Hmin.
  split; [done|]. split; [done|].
  replace (Z.to_nat _) with (Z.to_nat (len recs)) by lia.
  apply records_scan; [apply has_records_image|fold recs; lia|fold recs; lia].
Qed.

(** *** Probing a table *)

Lemma home_lt L h : (0 < L)%nat → (home L h < L)%nat.
Proof.
  intros HL. unfold home.
  pose proof (Z.mod_pos_bound (h ≫ 8) (Z.of_nat L)). lia.
Qed.

Lemma probe_order_perm w L :
  (w ≤ L)%nat → Writer.probe_order w L ≡ₚ seq 0 L.
Proof.
  intros Hw. unfold Writer.probe_order.
  etrans; [apply Permutation_app_comm|].
  replace (seq 0 L) with (seq 0 (w + (L - w))) by (f_equal; lia).
  by rewrite seq_app.
Qed.

Lemma probe_order_NoDup w L : (w ≤ L)%nat → NoDup (Writer.probe_order w L).
Proof. intros Hw. rewrite probe_order_perm by done. apply NoDup_seq. Qed.

Lemma elem_of_probe_order w L i :
  (w ≤ L)%nat → i ∈ Writer.probe_order w L ↔ (i < L)%nat.
Proof.
  intros Hw. rewrite probe_order_perm by done. rewrite elem_of_seq. lia.
Qed.

(** A list splits at its first element that fails [P]. *)
Lemma split_first {A} (P : A → bool) (l : list A) :
  Forall (λ x, P x = true) l ∨
  ∃ a x c, l = a ++ x :: c ∧ Forall (λ x, P x = true) a ∧ P x = false.
Proof.
  induction l as [|y l IH]; [by left|].
  destruct (P y) eqn:Hy.
  - destruct IH as [IH|(a & x & c & -> & Ha & Hx)].
    + left. by constructor.
    + right. exists (y :: a), x, c. split; [done|]. split; [by constructor|done].
  - right. exists [], y, l. by repeat split.
Qed.

Lemma walked_all T idxs :
  Forall (λ i, occupied (T !!! i) = true) idxs → walked T idxs = idxs.
Proof. induction 1 as [|i idxs Hi _ IH]; cbn [walked app]; [done|]. by rewrite Hi, IH. Qed.

Lemma walked_split T a x c :
  Forall (λ i, occupied (T !!! i) = true) a → occupied (T !!! x) = false →
  walked T (a ++ x :: c) = a.
Proof.
  induction 1 as [|i a Hi _ IH]; intros Hx; cbn [walked app].
  - by rewrite Hx.
  - by rewrite Hi, IH.
Qed.

Lemma walked_app T a c :
  Forall (λ i, occupied (T !!! i) = true) a →
  walked T (a ++ c) = a ++ walked T c.
Proof. induction 1 as [|i a Hi _ IH]; cbn [walked app]; [done|]. by rewrite Hi, IH. Qed.

Lemma walked_occupied T idxs :
  Forall (λ i, occupied (T !!! i) = true) (walked T idxs).
Proof.
  induction idxs as [|i idxs IH]; cbn [walked app]; [constructor|].
  destruct (occupied _) eqn:Hi; by constructor.
Qed.

Lemma walked_ext T T' idxs :
  Forall (λ i, T' !!! i = T !!! i) idxs → walked T' idxs = walked T idxs.
Proof. induction 1 as [|i idxs Hi _ IH]; cbn [walked app]; [done|]. by rewrite Hi, IH. Qed.

Lemma place_all ordered idxs pair :
  Forall (λ i, occupied (ordered !!! i) = true) idxs →
  Writer.place ordered idxs pair = ordered.
Proof.
  induction 1 as [|i idxs Hi _ IH]; cbn [Writer.place app]; [done|].
  unfold occupied in Hi. by destruct (_ =? 0).
Qed.

Lemma place_split ordered a x c pair :
  Forall (λ i, occupied (ordered !!! i) = true) a →
  occupied (ordered !!! x) = false →
  Writer.place ordered (a ++ x :: c) pair = <[x := pair]> ordered.
Proof.
  induction 1 as [|i a Hi _ IH]; intros Hx; cbn [Writer.place app].
  - unfold occupied in Hx. by destruct (_ =? 0).
  - unfold occupied in Hi. destruct (_ =? 0); [done|by apply IH].
Qed.

Lemma walked_subseteq T idxs i : i ∈ walked T idxs → i ∈ idxs.
Proof.
  induction idxs as [|j idxs IH]; cbn [walked]; [done|].
  destruct (occupied _); [|by intros ?%elem_of_nil].
  intros [->|?]%elem_of_cons; [left|right; auto].
Qed.

Lemma occupied_ne (T : list slot) (a : list nat) (e : nat) :
  Forall (λ i, occupied (T !!! i) = true) a → occupied (T !!! e) = false →
  Forall (λ i, i ≠ e) a.
Proof.
  intros Ha He. eapply Forall_impl; [exact Ha|]. cbv beta.
  intros i Hi ->. congruence.
Qed.

Lemma Forall_insert_ne (T : list slot) (e : nat) (pair : slot) idxs :
  Forall (λ i, i ≠ e) idxs →
  Forall (λ i, <[e:=pair]> T !!! i = T !!! i) idxs.
Proof.
  intros H. eapply Forall_impl; [exact H|]. cbv beta.
  intros i Hi. by apply list_lookup_total_insert_ne.
Qed.

Lemma Forall_occupied_insert (T : list slot) (e : nat) (pair : slot) a :
  Forall (λ i, occupied (T !!! i) = true) a → occupied (T !!! e) = false →
  Forall (λ i, occupied (<[e:=pair]> T !!! i) = true) a.
Proof.
  intros Ha He. pose proof (occupied_ne _ _ _ Ha He) as Hne.
  apply Forall_forall. intros i Hi.
  rewrite list_lookup_total_insert_ne.
  - by eapply Forall_forall in Ha.
  - intros ->. by eapply Forall_forall in Hne.
Qed.

(** The walk after a store into a free slot [e]. *)
Lemma walked_insert_all (T : list slot) (e : nat) pair idxs :
  Forall (λ i, occupied (T !!! i) = true) idxs → occupied (T !!! e) = false →
  walked (<[e:=pair]> T) idxs = walked T idxs.
Proof.
  intros Ha He. apply walked_ext, Forall_insert_ne. by eapply occupied_ne.
Qed.

Lemma walked_insert_other (T : list slot) (e : nat) pair a x c :
  Forall (λ i, occupied (T !!! i) = true) a → occupied (T !!! x) = false →
  occupied (T !!! e) = false → x ≠ e →
  walked (<[e:=pair]> T) (a ++ x :: c) = a.
Proof.
  intros Ha Hx He Hne. apply walked_split.
  - by apply Forall_occupied_insert.
  - by rewrite list_lookup_total_insert_ne.
Qed.

Lemma walked_insert_here (T : list slot) (e : nat) pair a c :
  NoDup (a ++ e :: c) → (e < length T)%nat →
  Forall (λ i, occupied (T !!! i) = true) a → occupied (T !!! e) = false →
  occupied pair = true →
  walked (<[e:=pair]> T) (a ++ e :: c) = a ++ e :: walked T c.
Proof.
  intros Hnd Hlt Ha He Hp.
  rewrite walked_app by by apply Forall_occupied_insert.
  cbn [walked]. rewrite list_lookup_total_insert_eq, Hp by done.
  do 2 f_equal. apply walked_ext, Forall_insert_ne, Forall_forall.
  intros i Hi ->. apply NoDup_app in Hnd as (_ & _ & Hnd).
  by apply NoDup_cons in Hnd as [? _].
Qed.

Lemma walked_insert_mono (T : list slot) (e : nat) pair idxs j :
  NoDup idxs → (e < length T)%nat → occupied (T !!! e) = false →
  occupied pair = true →
  j ∈ walked T idxs → j ∈ walked (<[e:=pair]> T) idxs.
Proof.
  intros Hnd Hlt He Hp.
  destruct (split_first (λ i, occupied (T !!! i)) idxs)
    as [Hall|(a & x & c & -> & Ha & Hx)].
  - by rewrite walked_insert_all.
  - rewrite (walked_split T a x c) by done. intros Hj.
    destruct (decide (x = e)) as [->|Hne].
    + rewrite walked_insert_here by done. apply elem_of_app. by left.
    + by rewrite walked_insert_other.
Qed.

Lemma filter_insert_free (T : list slot) e pair :
  (e < length T)%nat → occupied (T !!! e) = false → occupied pair = true →
  filter (λ s, occupied s = true) (<[e:=pair]> T) ≡ₚ
  pair :: filter (λ s, occupied s = true) T.
Proof.
  intros Hlt He Hp.
  pose proof (list_lookup_lookup_total_lt T e Hlt) as Hl.
  rewrite insert_take_drop by done.
  rewrite <- (take_drop_middle T e _ Hl) at 3.
  rewrite !filter_app, !filter_cons.
  rewrite decide_True by done. rewrite decide_False by congruence.
  by rewrite Permutation_middle.
Qed.

Lemma free_slot (T : list slot) :
  (length (filter (λ s, occupied s = true) T) < length T)%nat →
  ∃ j, (j < length T)%nat ∧ occupied (T !!! j) = false.
Proof.
  induction T as [|s T IH]; [simpl; lia|].
  rewrite filter_cons. destruct (decide (occupied s = true)) as [Hs|Hs].
  - cbn [length]. intros Hlt. destruct IH as (j & Hj & Hf); [lia|].
    exists (S j). split; [lia|done].
  - intros _. exists 0%nat. split; [simpl; lia|].
    simpl. by destruct (occupied s).
Qed.

(** *** Linear probing keeps probe chains unbroken *)

Section Table.

Variable L : nat.
Hypothesis L_pos : (0 < L)%nat.

Lemma probe_NoDup h : NoDup (Writer.probe_order (home L h) L).
Proof. apply probe_order_NoDup. pose proof (home_lt L h L_pos). lia. Qed.

Lemma elem_of_probe h i :
  i ∈ Writer.probe_order (home L h) L ↔ (i < L)%nat.
Proof. apply elem_of_probe_order. pose proof (home_lt L h L_pos). lia. Qed.

Lemma order_step_place T pair :
  Writer.order_step (Z.of_nat L) T pair =
  Writer.place T (Writer.probe_order (home L pair.1) L) pair.
Proof. unfold Writer.order_step, home. by rewrite Nat2Z.id. Qed.

(** With a free slot in the table, the probe finds the first one. *)
Lemma first_free (T : list slot) h :
  length T = L → (∃ j, (j < L)%nat ∧ occupied (T !!! j) = false) →
  ∃ a e c,
    Writer.probe_order (home L h) L = a ++ e :: c ∧
    Forall (λ i, occupied (T !!! i) = true) a ∧
    occupied (T !!! e) = false ∧ (e < L)%nat.
Proof.
  intros HT (j & Hj & Hf).
  destruct (split_first (λ i, occupied (T !!! i))
              (Writer.probe_order (home L h) L))
    as [Hall|(a & e & c & Heq & Ha & He)].
  - apply (proj2 (elem_of_probe h j)) in Hj.
    eapply Forall_forall in Hall; [|exact Hj]. cbv beta in Hall. congruence.
  - exists a, e, c. repeat split; try done.
    apply (elem_of_probe h). rewrite Heq, elem_of_app, elem_of_cons. auto.
Qed.

Lemma chained_insert (T : list slot) pair a e c :
  chained L T →
  Writer.probe_order (home L pair.1) L = a ++ e :: c →
  Forall (λ i, occupied (T !!! i) = true) a →
  occupied (T !!! e) = false → (e < L)%nat → occupied pair = true →
  chained L (<[e:=pair]> T).
Proof.
  intros [HT Hch] Heq Ha He Hlt Hp. split; [by rewrite length_insert|].
  intros j s Hj Hs. destruct (decide (j = e)) as [->|Hne].
  - rewrite list_lookup_insert_eq in Hj by lia. injection Hj as <-.
    rewrite Heq, walked_insert_here; try done; try lia.
    + rewrite elem_of_app, elem_of_cons. auto.
    + rewrite <- Heq. apply probe_NoDup.
  - rewrite list_lookup_insert_ne in Hj by done.
    apply walked_insert_mono; try done; try lia; [apply probe_NoDup|].
    by apply Hch.
Qed.

(** Nothing with hash [h] lies beyond the first free slot of [h]'s probe. *)
Lemma no_hits_beyond (T : list slot) h a x c :
  chained L T →
  Writer.probe_order (home L h) L = a ++ x :: c →
  Forall (λ i, occupied (T !!! i) = true) a → occupied (T !!! x) = false →
  filter (λ s : slot, s.1 = h) ((T !!!.) <$> walked T c) = [].
Proof.
  intros [HT Hch] Heq Ha Hx. apply elem_of_nil_inv. intros s.
  rewrite list_elem_of_filter, list_elem_of_fmap.
  intros [Hh (j & -> & Hj)].
  pose proof (walked_occupied T c) as Hocc.
  eapply Forall_forall in Hocc; [|exact Hj]. cbv beta in Hocc.
  apply walked_subseteq in Hj.
  assert (j < L)%nat as Hlt.
  { apply (elem_of_probe h). rewrite Heq, elem_of_app, elem_of_cons. auto. }
  specialize (Hch j (T !!! j)). rewrite Hh in Hch.
  rewrite Heq, walked_split in Hch by done.
  pose proof (probe_NoDup h) as Hnd. rewrite Heq in Hnd.
  apply NoDup_app in Hnd as (_ & Hnd & _).
  apply (Hnd j); [|by right].
  apply Hch; [|done]. apply list_lookup_lookup_total_lt. lia.
Qed.

Lemma hits_insert (T : list slot) pair a e c h :
  chained L T →
  Writer.probe_order (home L pair.1) L = a ++ e :: c →
  Forall (λ i, occupied (T !!! i) = true) a →
  occupied (T !!! e) = false → (e < L)%nat → occupied pair = true →
  hits L (<[e:=pair]> T) h = hits L T h ++ filter (λ s : slot, s.1 = h) [pair].
Proof.
  intros Hch Heq Ha He Hlt Hp. pose proof Hch as [HT _]. unfold hits.
  destruct (first_free T h HT) as (a' & x & c' & Heq' & Ha' & Hx & Hlt');
    [by exists e|].
  rewrite Heq', (walked_split T a' x c') by done.
  destruct (decide (x = e)) as [->|Hne].
  - rewrite walked_insert_here; try done; try lia;
      [|rewrite <- Heq'; apply probe_NoDup].
    rewrite fmap_app, fmap_cons, filter_app, (filter_cons _ (_ !!! e)).
    rewrite list_lookup_total_insert_eq by lia.
    assert (∀ l, Forall (λ i, i ≠ e) l →
              (<[e:=pair]> T !!!.) <$> l = (T !!!.) <$> l) as Hext.
    { intros l Hl. apply Forall_fmap_ext_1. by apply Forall_insert_ne. }
    rewrite (Hext a') by by eapply occupied_ne.
    rewrite (Hext (walked T c')).
    2:{ apply Forall_forall. intros i Hi ->. apply walked_subseteq in Hi.
        pose proof (probe_NoDup h) as Hnd. rewrite Heq' in Hnd.
        apply NoDup_app in Hnd as (_ & _ & Hnd).
        by apply NoDup_cons in Hnd as [? _]. }
    by rewrite (no_hits_beyond T h a' e c') by done.
  - rewrite walked_insert_other by done.
    rewrite (Forall_fmap_ext_1 (<[e:=pair]> T !!!.) (T !!!.))
      by by eapply Forall_insert_ne, occupied_ne.
    rewrite filter_cons, filter_nil, decide_False; [by rewrite app_nil_r|].
    intros Hh. rewrite Hh, Heq' in Heq.
    assert (a' = a) as ->.
    { rewrite <- (walked_split T a' x c'), <- (walked_split T a e c) by done.
      by rewrite Heq. }
    apply app_inv_head in Heq. congruence.
Qed.

End Table.

Lemma order_step_spec L (T : list slot) filled pair :
  (0 < L)%nat → chained L T →
  filter (λ s, occupied s = true) T ≡ₚ filled → (length filled < L)%nat →
  occupied pair = true →
  ∃ a e c,
    Writer.probe_order (home L pair.1) L = a ++ e :: c ∧
    Forall (λ i, occupied (T !!! i) = true) a ∧
    occupied (T !!! e) = false ∧ (e < L)%nat ∧
    Writer.order_step (Z.of_nat L) T pair = <[e:=pair]> T ∧
    chained L (<[e:=pair]> T) ∧
    filter (λ s, occupied s = true) (<[e:=pair]> T) ≡ₚ filled ++ [pair] ∧
    ∀ h, hits L (<[e:=pair]> T) h =
         hits L T h ++ filter (λ s : slot, s.1 = h) [pair].
Proof.
  intros HL Hch Hperm Hlt Hp. pose proof Hch as [HT _].
  destruct (first_free L HL T pair.1 HT) as (a & e & c & Heq & Ha & He & He').
  { rewrite <- HT. apply free_slot. rewrite Hperm. lia. }
  exists a, e, c. repeat split; try done.
  - rewrite order_step_place, Heq. by apply place_split.
  - by rewrite length_insert.
  - by eapply chained_insert.
  - rewrite filter_insert_free by (done || lia).
    rewrite Hperm. apply Permutation_cons_append.
  - intros h. by eapply hits_insert.
Qed.

Lemma fold_order_step L tbl : ∀ (T : list slot) filled,
  (0 < L)%nat → chained L T →
  filter (λ s, occupied s = true) T ≡ₚ filled →
  (length filled + length tbl ≤ L)%nat → (length tbl < L)%nat →
  Forall (λ pair, occupied pair = true) tbl →
  let T' := fold_left (Writer.order_step (Z.of_nat L)) tbl T in
  chained L T' ∧
  filter (λ s, occupied s = true) T' ≡ₚ filled ++ tbl ∧
  ∀ h, hits L T' h = hits L T h ++ filter (λ s : slot, s.1 = h) tbl.
Proof.
  induction tbl as [|pair tbl IH]; intros T filled HL Hch Hperm Hlen Hlt Hocc.
  - simpl. rewrite app_nil_r. split; [done|]. split; [done|].
    intros h. by rewrite filter_nil, app_nil_r.
  - apply Forall_cons in Hocc as [Hp Hocc]. cbn [length] in *.
    destruct (order_step_spec L T filled pair)
      as (a & e & c & _ & _ & _ & _ & Hstep & Hch' & Hperm' & Hhits);
      try done; try lia.
    cbn [fold_left]. rewrite Hstep.
    destruct (IH (<[e:=pair]> T) (filled ++ [pair])) as (H1 & H2 & H3);
      try done; try (rewrite ?length_app; simpl; lia).
    split; [done|]. split; [by rewrite H2, <- (assoc_L (++))|].
    intros h. rewrite H3, Hhits, <- (assoc_L (++)). f_equal.
    by rewrite <- filter_app.
Qed.

Lemma occupied_replicate n i : occupied (replicate n (0, 0) !!! i) = false
  ∨ (n ≤ i)%nat.
Proof.
  destruct (decide (i < n)%nat); [left|right; lia].
  by rewrite lookup_total_replicate_2.
Qed.

Lemma chained_replicate L : chained L (replicate L (0, 0)).
Proof.
  split; [by rewrite length_replicate|].
  intros j s [-> _]%lookup_replicate. done.
Qed.

Lemma filter_replicate_free n :
  filter (λ s, occupied s = true) (replicate n (0, 0)) = [].
Proof. induction n; [done|]. simpl. by rewrite filter_cons, decide_False. Qed.

Lemma hits_replicate L h : (0 < L)%nat → hits L (replicate L (0, 0)) h = [].
Proof.
  intros HL. unfold hits.
  replace (walked _ _) with (@nil nat); [done|].
  symmetry. apply elem_of_nil_inv. intros i Hi.
  pose proof (walked_occupied (replicate L (0, 0))
                (Writer.probe_order (home L h) L)) as Hocc.
  eapply Forall_forall in Hocc; [|exact Hi]. cbv beta in Hocc.
  apply walked_subseteq, elem_of_probe in Hi; [|done].
  destruct (occupied_replicate L i); [congruence|lia].
Qed.

Lemma len_shiftl_1 {A} (l : list A) :
  len l ≪ 1 = Z.of_nat (2 * length l).
Proof. rewrite shiftl_1. unfold len. lia. Qed.

(** The probe for [h] in a finished table passes exactly the entries with
    hash [h], in the order they were put. *)
Lemma order_table_spec tbl :
  tbl ≠ [] → Forall (λ pair, occupied pair = true) tbl →
  let L := (2 * length tbl)%nat in
  chained L (Writer.order_table tbl) ∧
  filter (λ s, occupied s = true) (Writer.order_table tbl) ≡ₚ tbl ∧
  ∀ h, hits L (Writer.order_table tbl) h = filter (λ s : slot, s.1 = h) tbl.
Proof.
  intros Hne Hocc L. unfold Writer.order_table. rewrite len_shiftl_1.
  rewrite Nat2Z.id. fold L.
  assert (0 < length tbl)%nat by (destruct tbl; [done|simpl; lia]).
  destruct (fold_order_step L tbl (replicate L (0, 0)) [])
    as (H1 & H2 & H3); try done; try (unfold L; simpl; lia).
  - apply chained_replicate.
  - by rewrite filter_replicate_free.
  - split; [done|]. split; [done|]. intros h.
    rewrite H3, hits_replicate; [done|unfold L; lia].
Qed.

(** Whatever the hashes, a slot of a finished table is a pending entry
    or was never stored to. *)
Lemma place_Forall (P : slot → Prop) idxs : ∀ T pair,
  Forall P T → P pair → Forall P (Writer.place T idxs pair).
Proof.
  induction idxs as [|i idxs IH]; intros T pair HT Hp; simpl; [done|].
  destruct (_ =? 0); [by apply Forall_insert|by apply IH].
Qed.

Lemma fold_order_step_Forall (P : slot → Prop) L tbl : ∀ T,
  Forall P T → Forall P tbl →
  Forall P (fold_left (Writer.order_step L) tbl T).
Proof.
  induction tbl as [|pair tbl IH]; intros T HT Htbl; [done|].
  apply Forall_cons in Htbl as [Hp Htbl]. cbn [fold_left].
  apply IH; [|done]. by apply place_Forall.
Qed.

Lemma order_table_slots tbl :
  Forall (λ s, s = (0, 0) ∨ s ∈ tbl) (Writer.order_table tbl).
Proof.
  apply fold_order_step_Forall.
  - apply Forall_replicate. by left.
  - apply Forall_forall. by right.
Qed.

(** *** [gets] on an image *)

Lemma land_shiftl_3 h : Z.land (h ≪ 3) 2047 = 8 * Z.of_nat (bucket_of h).
Proof.
  unfold bucket_of. rewrite land_255.
  change 2047 with (Z.ones 11). rewrite Z.land_ones by lia.
  rewrite Z.shiftl_mul_pow2 by lia.
  pose proof (Z.mod_pos_bound h 256). rewrite Z2Nat.id by lia.
  change (2 ^ 11) with (256 * 2 ^ 3). rewrite Z.mul_mod_distr_r by lia. lia.
Qed.

Lemma seqZ_0 n : seqZ 0 (Z.of_nat n) = Z.of_nat <$> seq 0 n.
Proof.
  unfold seqZ. rewrite Nat2Z.id. apply list_fmap_ext. intros; lia.
Qed.

Lemma xrange_8 start (a n : nat) :
  xrange (start + (Z.of_nat a ≪ 3)) (start + (Z.of_nat (a + n) ≪ 3)) 8 =
  (λ i, start + 8 * Z.of_nat i) <$> seq a n.
Proof.
  unfold xrange. rewrite !Z.shiftl_mul_pow2 by lia.
  replace ((_ - _ + 8 - 1) `div` 8) with (Z.of_nat n)
    by (apply (Z.div_unique _ 8 _ 7); lia).
  rewrite seqZ_0, <- list_fmap_compose.
  replace (seq a n) with (Nat.add a <$> seq 0 n)
    by (rewrite fmap_add_seq; f_equal; lia).
  rewrite <- list_fmap_compose. apply list_fmap_ext. intros i x _. simpl. lia.
Qed.

Lemma xrange_probe start (w L : nat) :
  (w ≤ L)%nat →
  xrange (start + (Z.of_nat w ≪ 3)) (start + (Z.of_nat L ≪ 3)) 8 ++
  xrange start (start + (Z.of_nat w ≪ 3)) 8 =
  (λ i, start + 8 * Z.of_nat i) <$> Writer.probe_order w L.
Proof.
  intros Hw. unfold Writer.probe_order. rewrite fmap_app.
  replace L with (w + (L - w))%nat at 1 by lia. rewrite xrange_8. f_equal.
  pose proof (xrange_8 start 0 w) as Hx. simpl in Hx.
  by rewrite Z.add_0_r in Hx.
Qed.

Lemma index_tables tbls : ∀ pos i tbl,
  tbls !! i = Some tbl →
  ∃ off, index_from pos tbls !! i = Some (off, len tbl ≪ 1) ∧
         ∀ data, has data pos (tables tbls) →
                 has data off (enc_tbl (Writer.order_table tbl)).
Proof.
  induction tbls as [|t tbls IH]; intros pos i tbl Hi; [done|].
  destruct i as [|i]; cbn [index_from]; simpl in Hi.
  - injection Hi as ->. exists pos. split; [done|].
    intros data Hd. unfold tables in Hd; cbn [fmap list_fmap concat] in Hd.
    by eapply has_app_l.
  - destruct (IH (pos + 8 * (len t ≪ 1)) i tbl Hi) as (off & Hoff & Hhas).
    exists off. split; [done|]. intros data Hd. apply Hhas.
    unfold tables in Hd; cbn [fmap list_fmap concat] in Hd.
    apply has_app_r in Hd. unfold len in Hd at 1.
    rewrite length_enc_tbl, length_order_table in Hd.
    rewrite len_shiftl_1. by replace (8 * Z.of_nat (2 * length t)) with
      (Z.of_nat (8 * (2 * length t))) by lia.
Qed.

Lemma get_value_record self p k v key :
  has (Reader.data self) p (record (k, v)) →
  len k < 2 ^ 32 → len v < 2 ^ 32 →
  Reader._get_value self p key =
  Ok (if decide (k = key) then Some v else None).
Proof.
  intros Hd Hk Hv. unfold Reader._get_value.
  destruct (record_read _ p k v Hd Hk Hv) as (-> & -> & ->).
  by destruct (decide (k = key)).
Qed.

Lemma probe_walk self h key (T : list slot) start idxs : ∀ rs,
  has (Reader.data self) start (enc_tbl T) →
  Forall (λ i, (i < length T)%nat) idxs →
  Forall2 (λ s r, Reader._get_value self s.2 key = Ok r)
    (filter (λ s : slot, s.1 = h)
       (((wrap <$> T) !!!.) <$> walked (wrap <$> T) idxs)) rs →
  Reader.probe self h key ((λ i, start + 8 * Z.of_nat i) <$> idxs) =
  gen_of_list (omap id rs).
Proof.
  intros rs Hd. revert rs.
  induction idxs as [|i idxs IH]; intros rs Hlt Hrs.
  - cbn in Hrs. by apply Forall2_nil_inv_l in Hrs as ->.
  - apply Forall_cons in Hlt as [Hi Hlt].
    cbn [fmap list_fmap Reader.probe].
    pose proof (list_lookup_lookup_total_lt T i Hi) as HTi.
    rewrite (read_slot _ start T i _ Hd HTi).
    assert ((wrap <$> T) !!! i = wrap (T !!! i)) as HD.
    { apply list_lookup_total_correct. by rewrite list_lookup_fmap, HTi. }
    cbn [walked] in Hrs. rewrite HD in Hrs. unfold occupied in Hrs.
    destruct (wrap (T !!! i)) as [rec_h rec_pos] eqn:Hw. cbn [fst] in Hrs.
    destruct (Z.eqb_spec rec_h 0) as [Hz|Hz]; cbn [negb] in Hrs.
    + cbn in Hrs. by apply Forall2_nil_inv_l in Hrs as ->.
    + rewrite fmap_cons, HD, filter_cons in Hrs. cbn [fst] in Hrs.
      destruct (Z.eqb_spec rec_h h) as [Hh|Hh].
      * rewrite decide_True in Hrs by done.
        apply Forall2_cons_inv_l in Hrs as (r & rs' & Hr & Hrs & ->).
        cbn [snd] in Hr. rewrite Hr. cbn [omap list_omap].
        destruct r as [v|]; cbn [id gen_of_list]; rewrite (IH rs'); done.
      * rewrite decide_False in Hrs by done. by apply IH.
Qed.

Lemma buckets_lookup es i :
  (i < 256)%nat → buckets es !! i = Some (bucket i es).
Proof.
  intros Hi. unfold buckets. by rewrite list_lookup_fmap, lookup_seq_lt.
Qed.

Lemma has_tables_image builtin fn items :
  let recs := concat (record <$> items) in
  let tbls := buckets (entry (hash_of builtin fn) <$> layout 2048 items) in
  has (image builtin fn items) (2048 + len recs) (tables tbls).
Proof.
  intros recs tbls. rewrite image_shape. fold recs tbls.
  eexists (_ ++ recs), []. rewrite app_nil_r, <- (assoc_L (++)).
  split; [done|]. rewrite len_app.
  replace (len (enc_tbl _)) with 2048; [done|]. unfold len, tbls.
  by rewrite length_enc_tbl, length_index_from, length_buckets.
Qed.

(** The header entry of the bucket of [h], and the table it points to. *)
Lemma bucket_table builtin fn items h :
  let tbl := bucket (bucket_of h)
               (entry (hash_of builtin fn) <$> layout 2048 items) in
  len (image builtin fn items) < 2 ^ 32 →
  ∃ start,
    read_2_le4 (slice (image builtin fn items)
                  (Z.land (h ≪ 3) 2047) (Z.land (h ≪ 3) 2047 + 8))
    = Some (start, len tbl ≪ 1) ∧
    has (image builtin fn items) start (enc_tbl (Writer.order_table tbl)).
Proof.
  intros tbl Hsz. rewrite land_shiftl_3.
  pose proof (bucket_of_lt h) as Hb.
  set (es := entry (hash_of builtin fn) <$> layout 2048 items) in *.
  set (recs := concat (record <$> items)).
  destruct (index_tables (buckets es) (2048 + len recs) (bucket_of h) tbl)
    as (start & Hix & Hhas); [by apply buckets_lookup|].
  exists start. split; [|apply Hhas, has_tables_image].
  pose proof (read_slot (image builtin fn items) 0
                (index_from (2048 + len recs) (buckets es))
                (bucket_of h) _ (ltac:(rewrite image_shape; apply has_here))
                Hix) as Hr.
  rewrite Z.add_0_l in Hr. rewrite Hr. f_equal.
  pose proof (len_image builtin fn items) as Hlen. cbv zeta in Hlen.
  fold es recs in Hlen. pose proof (len_nonneg recs).
  pose proof (index_from_bounds (buckets es) (2048 + len recs)) as Hbd.
  eapply Forall_lookup in Hbd; [|exact Hix]. cbn [fst snd] in Hbd.
  apply wrap_id; lia.
Qed.

Lemma gets_empty_bucket builtin fn items r key :
  reader builtin fn (image builtin fn items) = Ok r →
  len (image builtin fn items) < 2 ^ 32 →
  bucket (bucket_of (hash_of builtin fn key))
    (entry (hash_of builtin fn) <$> layout 2048 items) = [] →
  Reader.gets r key = Stop.
Proof.
  intros Hr Hsz Hnil. image_size builtin fn items.
  rewrite reader_ok in Hr by lia. injection Hr as <-.
  unfold Reader.gets; cbn [Reader.data Reader.hash].
  destruct (bucket_table builtin fn items (hash_of builtin fn key) Hsz)
    as (start & -> & _).
  by rewrite Hnil.
Qed.

Lemma gets_probe builtin fn items r key rs :
  let H := hash_of builtin fn in
  let tbl := bucket (bucket_of (H key)) (entry H <$> layout 2048 items) in
  let L := (2 * length tbl)%nat in
  let D := wrap <$> Writer.order_table tbl in
  reader builtin fn (image builtin fn items) = Ok r →
  len (image builtin fn items) < 2 ^ 32 →
  tbl ≠ [] →
  Forall2 (λ s r', Reader._get_value r s.2 key = Ok r')
    (filter (λ s : slot, s.1 = H key)
       ((D !!!.) <$> walked D (Writer.probe_order (home L (H key)) L))) rs →
  Reader.gets r key = gen_of_list (omap id rs).
Proof.
  intros H tbl L D Hr Hsz Hne Hrs.
  image_size builtin fn items.
  rewrite reader_ok in Hr by lia. injection Hr as <-.
  unfold Reader.gets; cbn [Reader.data Reader.hash]. fold H.
  destruct (bucket_table builtin fn items (H key) Hsz) as (start & -> & Hhas).
  fold H tbl in Hhas |- *.
  assert (0 < length tbl)%nat as Hpos by (destruct tbl; [done|simpl; lia]).
  rewrite len_shiftl_1. fold L.
  destruct (Z.eqb_spec (Z.of_nat L) 0) as [?|_]; [lia|]. cbn [negb].
  assert (home L (H key) < L)%nat as Hhome by (apply home_lt; lia).
  replace ((H key ≫ 8) `mod` Z.of_nat L) with (Z.of_nat (home L (H key))).
  2:{ unfold home. pose proof (Z.mod_pos_bound (H key ≫ 8) (Z.of_nat L)). lia. }
  rewrite xrange_probe by lia.
  apply (probe_walk _ _ _ (Writer.order_table tbl)); [done| |done].
  apply Forall_forall. intros i Hi.
  apply elem_of_probe_order in Hi; [|lia].
  rewrite length_order_table. by fold L.
Qed.

(** *** Entries and the records they point to *)

Lemma layout_bounds items : ∀ p x,
  x ∈ layout p items →
  p ≤ x.1 ∧ x.1 + len (record x.2) ≤ p + len (concat (record <$> items)).
Proof.
  induction items as [|kv items IH]; intros p x Hx; [by apply elem_of_nil in Hx|].
  cbn [layout] in Hx. rewrite len_records_cons.
  pose proof (len_nonneg (record kv)).
  pose proof (len_nonneg (concat (record <$> items))).
  apply elem_of_cons in Hx as [->|Hx]; [simpl; lia|].
  apply IH in Hx. lia.
Qed.

Lemma layout_item items : ∀ p x, x ∈ layout p items → x.2 ∈ items.
Proof.
  induction items as [|kv items IH]; intros p x Hx; [by apply elem_of_nil in Hx|].
  cbn [layout] in Hx.
  apply elem_of_cons in Hx as [->|Hx]; [left|right; by eapply IH].
Qed.

Lemma get_value_layout builtin fn items r key x :
  reader builtin fn (image builtin fn items) = Ok r →
  len (image builtin fn items) < 2 ^ 32 →
  x ∈ layout 2048 items →
  Reader._get_value r x.1 key = Ok (match_value key x) ∧
  2048 ≤ x.1 < 2 ^ 32.
Proof.
  intros Hr Hsz Hx. image_size builtin fn items.
  rewrite reader_ok in Hr by lia. injection Hr as <-.
  pose proof (layout_bounds _ _ _ Hx) as Hb.
  destruct x as [p [k v]]. cbn [fst snd] in *. rewrite len_record in Hb.
  pose proof (len_nonneg k). pose proof (len_nonneg v).
  split; [|lia]. unfold match_value; cbn [fst snd].
  apply get_value_record; cbn [Reader.data]; [|lia|lia].
  apply (has_record _ 2048 items (p, (k, v))); [|done].
  apply has_records_image.
Qed.

Lemma filter_hash_bucket (H : bytes → Z) h (lay : list (Z * (bytes * bytes))) :
  filter (λ s : slot, s.1 = h) (bucket (bucket_of h) (entry H <$> lay)) =
  entry H <$> filter (λ x, H x.2.1 = h) lay.
Proof.
  unfold bucket. induction lay as [|x lay IH]; [done|].
  rewrite fmap_cons, !filter_cons. cbn [entry fst].
  destruct (decide (H x.2.1 = h)) as [Hh|Hh].
  - rewrite decide_True by by rewrite Hh.
    rewrite filter_cons, decide_True by done. by rewrite IH, fmap_cons.
  - destruct (decide (bucket_of (H x.2.1) = bucket_of h)); [|done].
    by rewrite filter_cons, decide_False.
Qed.

Lemma omap_match_value (H : bytes → Z) key items : ∀ p,
  omap (match_value key) (filter (λ x, H x.2.1 = H key) (layout p items)) =
  values_of key items.
Proof.
  unfold values_of.
  induction items as [|[k v] items IH]; intros p; [done|].
  cbn [layout]. rewrite !filter_cons. cbn [fst snd].
  destruct (decide (k = key)) as [->|Hne].
  - rewrite decide_True by done. cbn [omap list_omap]. unfold match_value at 1.
    cbn [fst snd]. rewrite decide_True by done. by rewrite fmap_cons, IH.
  - destruct (decide (H k = H key)); [|by apply IH].
    cbn [omap list_omap]. unfold match_value at 1. cbn [fst snd].
    rewrite decide_False by done. by apply IH.
Qed.

Lemma elem_of_bucket_entries (H : bytes → Z) i (lay : list (Z * (bytes * bytes))) s :
  s ∈ bucket i (entry H <$> lay) → ∃ x, x ∈ lay ∧ s = entry H x.
Proof.
  unfold bucket. rewrite list_elem_of_filter, list_elem_of_fmap.
  intros [_ (x & -> & Hx)]. by exists x.
Qed.

(** *** Lookup of a key in an image whose hashes are in range and not zero *)

Lemma entries_occupied (H : bytes → Z) items p i :
  Forall (λ kv, 0 < H kv.1 < 2 ^ 32) items →
  Forall (λ s, occupied s = true) (bucket i (entry H <$> layout p items)).
Proof.
  intros Hh. apply Forall_forall. intros s Hs.
  apply elem_of_bucket_entries in Hs as (x & Hx & ->).
  apply layout_item in Hx. eapply Forall_forall in Hh; [|exact Hx].
  unfold occupied, entry; cbn [fst]. cbv beta in Hh.
  destruct (Z.eqb_spec (H x.2.1) 0); [lia|done].
Qed.

Lemma omap_id_fmap {A B} (f : A → option B) (l : list A) :
  omap id (f <$> l) = omap f l.
Proof.
  induction l as [|x l IH]; [done|]. cbn [fmap list_fmap omap list_omap id].
  by rewrite <- IH.
Qed.

Lemma wrap_order_table builtin fn items i :
  let H := hash_of builtin fn in
  let tbl := bucket i (entry H <$> layout 2048 items) in
  len (image builtin fn items) < 2 ^ 32 →
  Forall (λ kv, 0 < H kv.1 < 2 ^ 32) items →
  wrap <$> Writer.order_table tbl = Writer.order_table tbl.
Proof.
  intros H tbl Hsz Hh. pose proof (len_image builtin fn items) as Hlen.
  cbv zeta in Hlen.
  pose proof (len_nonneg (tables (buckets (entry (hash_of builtin fn) <$>
                                             layout 2048 items)))).
  rewrite <- (list_fmap_id (Writer.order_table tbl)) at 2.
  apply Forall_fmap_ext_1.
  eapply Forall_impl; [apply order_table_slots|]. cbv beta.
  intros s [->|Hs]; [done|].
  apply elem_of_bucket_entries in Hs as (x & Hx & ->).
  pose proof (layout_bounds _ _ _ Hx) as Hb.
  pose proof (len_nonneg (record x.2)).
  apply layout_item in Hx. eapply Forall_forall in Hh; [|exact Hx].
  cbv beta in Hh. unfold entry, id. apply wrap_id; lia.
Qed.

Lemma gets_image builtin fn items r key :
  reader builtin fn (image builtin fn items) = Ok r →
  len (image builtin fn items) < 2 ^ 32 →
  Forall (λ kv, 0 < hash_of builtin fn kv.1 < 2 ^ 32) items →
  Reader.gets r key = gen_of_list (values_of key items).
Proof.
  intros Hr Hsz Hh. set (H := hash_of builtin fn) in *.
  set (tbl := bucket (bucket_of (H key)) (entry H <$> layout 2048 items)).
  set (xs := filter (λ x, H x.2.1 = H key) (layout 2048 items)).
  assert (filter (λ s : slot, s.1 = H key) tbl = entry H <$> xs) as Hf
    by apply filter_hash_bucket.
  rewrite <- (omap_match_value H key items 2048). fold xs.
  destruct (decide (tbl = [])) as [Hnil|Hne].
  { rewrite (gets_empty_bucket builtin fn items r key Hr Hsz Hnil).
    rewrite Hnil, filter_nil in Hf.
    symmetry in Hf. apply fmap_nil_inv in Hf. by rewrite Hf. }
  rewrite <- omap_id_fmap.
  apply (gets_probe builtin fn items); try done. fold H tbl.
  assert (wrap <$> Writer.order_table tbl = Writer.order_table tbl) as ->
    by by apply (wrap_order_table builtin fn items).
  destruct (order_table_spec tbl Hne) as (_ & _ & Hhits).
  { by apply entries_occupied. }
  unfold hits in Hhits. rewrite Hhits, Hf.
  apply Forall2_fmap_2, Forall_Forall2_diag, Forall_forall.
  intros x [_ Hx]%list_elem_of_filter. cbn [entry snd].
  by apply (get_value_layout builtin fn items).
Qed.

(** *** Lookup of a key that was never put *)

Lemma gets_absent builtin fn items r key :
  reader builtin fn (image builtin fn items) = Ok r →
  len (image builtin fn items) < 2 ^ 32 →
  key ∉ items.*1 →
  Reader.gets r key = Stop.
Proof.
  intros Hr Hsz Hkey. set (H := hash_of builtin fn) in *.
  set (tbl := bucket (bucket_of (H key)) (entry H <$> layout 2048 items)).
  destruct (decide (tbl = [])) as [Hnil|Hne].
  { by apply (gets_empty_bucket builtin fn items). }
  set (L := (2 * length tbl)%nat).
  set (D := wrap <$> Writer.order_table tbl).
  set (ss := filter (λ s : slot, s.1 = H key)
               ((D !!!.) <$> walked D (Writer.probe_order (home L (H key)) L))).
  rewrite (gets_probe builtin fn items r key ((λ _, None) <$> ss)); try done.
  - rewrite omap_id_fmap. by induction ss.
  - fold H tbl L D ss. apply Forall2_fmap_r, Forall_Forall2_diag, Forall_forall.
    intros s Hs. cbv beta. unfold compose.
    apply list_elem_of_filter in Hs as [_ Hs].
    apply list_elem_of_fmap in Hs as (i & -> & Hi).
    pose proof (walked_occupied D (Writer.probe_order (home L (H key)) L))
      as Hocc.
    eapply Forall_forall in Hocc; [|exact Hi]. cbv beta in Hocc.
    apply walked_subseteq in Hi.
    assert (0 < length tbl)%nat as Hpos by (destruct tbl; [done|simpl; lia]).
    apply elem_of_probe_order in Hi;
      [|pose proof (home_lt L (H key)); lia].
    assert (i < length (Writer.order_table tbl))%nat as Hlt
      by by rewrite length_order_table.
    assert (D !!! i = wrap (Writer.order_table tbl !!! i)) as HD.
    { apply list_lookup_total_correct. unfold D.
      by rewrite list_lookup_fmap, (list_lookup_lookup_total_lt _ _ Hlt). }
    rewrite HD in *.
    pose proof (order_table_slots tbl) as Hsl.
    eapply Forall_lookup in Hsl; [|by apply list_lookup_lookup_total_lt].
    destruct Hsl as [Hz|Hin]; [by rewrite Hz in Hocc|].
    apply elem_of_bucket_entries in Hin as (x & Hx & Hxe).
    rewrite Hxe. unfold wrap, entry; cbn [fst snd].
    destruct (get_value_layout builtin fn items r key x Hr Hsz Hx)
      as [Hv Hb].
    rewrite Z.mod_small by lia. rewrite Hv. unfold match_value.
    rewrite decide_False; [done|]. intros <-. apply Hkey.
    apply list_elem_of_fmap. exists x.2. split; [done|by eapply layout_item].
Qed.

(** *** Entries with hash zero

    An entry whose hash is zero is stored like any other, but its slot
    still counts as free: a later entry may take it, and a probe stops
    there.  For the entries with other hashes it is as if it had never
    been stored. *)

Lemma walked_occupied_ext (T T' : list slot) idxs :
  Forall (λ i, occupied (T' !!! i) = occupied (T !!! i)) idxs →
  walked T' idxs = walked T idxs.
Proof.
  induction 1 as [|i idxs Hi _ IH]; cbn [walked]; [done|].
  by rewrite Hi, IH.
Qed.

Lemma occupied_insert_free (T : list slot) (e : nat) pair i :
  (e < List.length T)%nat →
  occupied (T !!! e) = false → occupied pair = false →
  occupied (<[e:=pair]> T !!! i) = occupied (T !!! i).
Proof.
  intros Hlt He Hp. destruct (decide (i = e)) as [->|Hne].
  - rewrite list_lookup_total_insert_eq by done. congruence.
  - by rewrite list_lookup_total_insert_ne.
Qed.

Lemma walked_insert_zero (T : list slot) (e : nat) pair idxs :
  (e < List.length T)%nat →
  occupied (T !!! e) = false → occupied pair = false →
  walked (<[e:=pair]> T) idxs = walked T idxs.
Proof.
  intros. apply walked_occupied_ext, Forall_forall. intros i _.
  by apply occupied_insert_free.
Qed.

Lemma filter_insert_zero (T : list slot) e pair :
  (e < List.length T)%nat →
  occupied (T !!! e) = false → occupied pair = false →
  filter (λ s, occupied s = true) (<[e:=pair]> T)
  = filter (λ s, occupied s = true) T.
Proof.
  intros Hlt He Hp.
  pose proof (list_lookup_lookup_total_lt T e Hlt) as Hl.
  rewrite insert_take_drop by done.
  rewrite <- (take_drop_middle T e _ Hl) at 3.
  rewrite !filter_app, !filter_cons.
  by rewrite !decide_False by congruence.
Qed.

Lemma chained_insert_zero L (T : list slot) (e : nat) pair :
  chained L T → (e < L)%nat →
  occupied (T !!! e) = false → occupied pair = false →
  chained L (<[e:=pair]> T).
Proof.
  intros [HT Hch] Hlt He Hp. split; [by rewrite length_insert|].
  intros j s Hj Hs. destruct (decide (j = e)) as [->|Hne].
  - rewrite list_lookup_insert_eq in Hj by lia. injection Hj as <-. congruence.
  - rewrite list_lookup_insert_ne in Hj by done.
    rewrite walked_insert_zero by (done || lia). by apply Hch.
Qed.

Lemma hits_insert_zero L (T : list slot) (e : nat) pair h :
  (e < List.length T)%nat →
  occupied (T !!! e) = false → occupied pair = false →
  hits L (<[e:=pair]> T) h = hits L T h.
Proof.
  intros Hlt He Hp. unfold hits. rewrite walked_insert_zero by done.
  f_equal. apply Forall_fmap_ext_1, Forall_insert_ne.
  eapply occupied_ne; [apply walked_occupied|done].
Qed.

(** One round of [finalize]'s loop over a bucket, whatever the hash of
    the entry. *)
Lemma order_step_any L (T : list slot) filled pair :
  (0 < L)%nat → chained L T →
  filter (λ s, occupied s = true) T
    ≡ₚ filter (λ s, occupied s = true) filled →
  (List.length filled < L)%nat →
  ∃ a e c,
    Writer.probe_order (home L pair.1) L = a ++ e :: c ∧
    Forall (λ i, occupied (T !!! i) = true) a ∧
    occupied (T !!! e) = false ∧ (e < L)%nat ∧
    Writer.order_step (Z.of_nat L) T pair = <[e:=pair]> T ∧
    chained L (<[e:=pair]> T) ∧
    filter (λ s, occupied s = true) (<[e:=pair]> T)
      ≡ₚ filter (λ s, occupied s = true) (filled ++ [pair]) ∧
    ∀ h, hits L (<[e:=pair]> T) h =
         hits L T h
         ++ filter (λ s : slot, s.1 = h)
              (filter (λ s, occupied s = true) [pair]).
Proof.
  intros HL Hch Hperm Hlt. pose proof Hch as [HT _].
  destruct (first_free L HL T pair.1 HT) as (a & e & c & Heq & Ha & He & He').
  { rewrite <- HT. apply free_slot. rewrite Hperm.
    pose proof (length_filter (λ s, occupied s = true) filled). lia. }
  exists a, e, c. split; [done|]. split; [done|]. split; [done|].
  split; [done|]. split.
  { rewrite order_step_place, Heq. by apply place_split. }
  rewrite filter_app, (filter_cons _ pair), filter_nil.
  destruct (decide (occupied pair = true)) as [Hp|Hp].
  - split; [by eapply chained_insert|]. split.
    + rewrite filter_insert_free by (done || lia).
      rewrite Hperm. apply Permutation_cons_append.
    + intros h. by eapply hits_insert.
  - apply not_true_is_false in Hp. split; [by apply chained_insert_zero|].
    split.
    + rewrite filter_insert_zero by (done || lia). by rewrite app_nil_r.
    + intros h. rewrite hits_insert_zero by (done || lia).
      by rewrite filter_nil, app_nil_r.
Qed.

Lemma fold_order_step_any L tbl : ∀ (T : list slot) filled,
  (0 < L)%nat → chained L T →
  filter (λ s, occupied s = true) T
    ≡ₚ filter (λ s, occupied s = true) filled →
  (List.length filled + List.length tbl ≤ L)%nat →
  (List.length tbl < L)%nat →
  let T' := fold_left (Writer.order_step (Z.of_nat L)) tbl T in
  chained L T' ∧
  filter (λ s, occupied s = true) T'
    ≡ₚ filter (λ s, occupied s = true) (filled ++ tbl) ∧
  ∀ h, hits L T' h =
       hits L T h
       ++ filter (λ s : slot, s.1 = h) (filter (λ s, occupied s = true) tbl).
Proof.
  induction tbl as [|pair tbl IH]; intros T filled HL Hch Hperm Hlen Hlt.
  - simpl. rewrite app_nil_r. split; [done|]. split; [done|].
    intros h. by rewrite !filter_nil, app_nil_r.
  - cbn [List.length] in *.
    destruct (order_step_any L T filled pair)
      as (a & e & c & _ & _ & _ & _ & Hstep & Hch' & Hperm' & Hhits);
      try done; try lia.
    cbn [fold_left]. rewrite Hstep.
    destruct (IH (<[e:=pair]> T) (filled ++ [pair])) as (H1 & H2 & H3);
      try done; try (rewrite ?length_app; simpl; lia).
    split; [done|]. split; [by rewrite H2, <- (assoc_L (++))|].
    intros h. rewrite H3, Hhits, <- (assoc_L (++)). f_equal.
    by rewrite <- !filter_app.
Qed.

(** The probe for [h] in a finished table passes exactly the entries with
    hash [h], other than zero, in the order they were put. *)
Lemma order_table_any tbl :
  tbl ≠ [] →
  let L := (2 * List.length tbl)%nat in
  chained L (Writer.order_table tbl) ∧
  filter (λ s, occupied s = true) (Writer.order_table tbl)
    ≡ₚ filter (λ s, occupied s = true) tbl ∧
  ∀ h, hits L (Writer.order_table tbl) h =
       filter (λ s : slot, s.1 = h) (filter (λ s, occupied s = true) tbl).
Proof.
  intros Hne L. unfold Writer.order_table. rewrite len_shiftl_1.
  rewrite Nat2Z.id. fold L.
  assert (0 < List.length tbl)%nat by (destruct tbl; [done|simpl; lia]).
  destruct (fold_order_step_any L tbl (replicate L (0, 0)) [])
    as (H1 & H2 & H3); try done; try (unfold L; simpl; lia).
  - apply chained_replicate.
  - by rewrite filter_replicate_free.
  - split; [done|]. split; [done|]. intros h.
    rewrite H3, hits_replicate; [done|unfold L; lia].
Qed.

(** *** Lookup in an image that may hold keys with hash zero *)

Lemma wrap_order_table_range builtin fn items i :
  let H := hash_of builtin fn in
  let tbl := bucket i (entry H <$> layout 2048 items) in
  len (image builtin fn items) < 2 ^ 32 →
  Forall (λ kv, 0 ≤ H kv.1 < 2 ^ 32) items →
  wrap <$> Writer.order_table tbl = Writer.order_table tbl.
Proof.
  intros H tbl Hsz Hh. image_size builtin fn items.
  rewrite <- (list_fmap_id (Writer.order_table tbl)) at 2.
  apply Forall_fmap_ext_1.
  eapply Forall_impl; [apply order_table_slots|]. cbv beta.
  intros s [->|Hs]; [done|].
  apply elem_of_bucket_entries in Hs as (x & Hx & ->).
  pose proof (layout_bounds _ _ _ Hx) as Hb.
  pose proof (len_nonneg (record x.2)).
  apply layout_item in Hx. eapply Forall_forall in Hh; [|exact Hx].
  cbv beta in Hh. unfold entry, id. apply wrap_id; lia.
Qed.

(** A key whose hash is not zero is found with all its values, whatever
    else the image holds. *)
Lemma gets_image_any builtin fn items r key :
  reader builtin fn (image builtin fn items) = Ok r →
  len (image builtin fn items) < 2 ^ 32 →
  Forall (λ kv, 0 ≤ hash_of builtin fn kv.1 < 2 ^ 32) items →
  hash_of builtin fn key ≠ 0 →
  Reader.gets r key = gen_of_list (values_of key items).
Proof.
  intros Hr Hsz Hh Hkey. set (H := hash_of builtin fn) in *.
  set (tbl := bucket (bucket_of (H key)) (entry H <$> layout 2048 items)).
  set (xs := filter (λ x, H x.2.1 = H key) (layout 2048 items)).
  assert (filter (λ s : slot, s.1 = H key) tbl = entry H <$> xs) as Hf
    by apply filter_hash_bucket.
  rewrite <- (omap_match_value H key items 2048). fold xs.
  destruct (decide (tbl = [])) as [Hnil|Hne].
  { rewrite (gets_empty_bucket builtin fn items r key Hr Hsz Hnil).
    rewrite Hnil, filter_nil in Hf.
    symmetry in Hf. apply fmap_nil_inv in Hf. by rewrite Hf. }
  rewrite <- omap_id_fmap.
  apply (gets_probe builtin fn items); try done. fold H tbl.
  assert (wrap <$> Writer.order_table tbl = Writer.order_table tbl) as ->
    by by apply (wrap_order_table_range builtin fn items).
  destruct (order_table_any tbl Hne) as (_ & _ & Hhits).
  unfold hits in Hhits. rewrite Hhits.
  rewrite list_filter_filter_l, Hf.
  2:{ intros s Hs. unfold occupied. rewrite Hs.
      by destruct (Z.eqb_spec (H key) 0). }
  apply Forall2_fmap_2, Forall_Forall2_diag, Forall_forall.
  intros x [_ Hx]%list_elem_of_filter. cbn [entry snd].
  by apply (get_value_layout builtin fn items).
Qed.

(** A key whose hash is zero is never found: the probe takes what is
    stored for it for a free slot. *)
Lemma gets_zero_hash builtin fn items r key :
  reader builtin fn (image builtin fn items) = Ok r →
  len (image builtin fn items) < 2 ^ 32 →
  hash_of builtin fn key = 0 →
  Reader.gets r key = Stop.
Proof.
  intros Hr Hsz Hkey. set (H := hash_of builtin fn) in *.
  set (tbl := bucket (bucket_of (H key)) (entry H <$> layout 2048 items)).
  destruct (decide (tbl = [])) as [Hnil|Hne].
  { by apply (gets_empty_bucket builtin fn items). }
  rewrite (gets_probe builtin fn items r key []); try done.
  fold H tbl. set (L := (2 * List.length tbl)%nat).
  set (D := wrap <$> Writer.order_table tbl).
  replace (filter _ _) with (@nil slot); [constructor|].
  symmetry. apply elem_of_nil_inv. intros s.
  rewrite list_elem_of_filter, list_elem_of_fmap.
  intros [Hs (i & -> & Hi)].
  pose proof (walked_occupied D (Writer.probe_order (home L (H key)) L))
    as Hocc.
  eapply Forall_forall in Hocc; [|exact Hi]. cbv beta in Hocc.
  unfold occupied in Hocc. rewrite Hs, Hkey in Hocc. done.
Qed.

(** * The claims *)

(** ** The hash functions *)

Lemma djb_step_eq h c :
  Z.land (Z.lxor ((h ≪ 5) + h) (ord c)) 0xffffffff = djb_step_mod32 h c.
Proof.
  unfold djb_step_mod32. change 0xffffffff with (Z.ones 32).
  rewrite Z.land_ones, Z.shiftl_mul_pow2, Zplus_mod_idemp_l by lia.
  apply Z.bits_inj'; intros i Hi.
  rewrite !Z.testbit_mod_pow2, !Z.lxor_spec, Z.testbit_mod_pow2 by lia.
  destruct (i <? 32); [done|]. by rewrite !andb_false_l.
Qed.

(** C8: [djb_hash] starts from 5381 and, for each byte of the key in
    order, takes [((h << 5) + h) xor c] with every operation modulo 2^32;
    it sends "dave" to 2087378131 and "davedavedavedavedave" to
    3529598163. *)
Theorem djb_hash_mod32_values :
  (∀ s, djb_hash s = djb_hash_mod32 s) ∧
  djb_hash [] = 5381 ∧
  (∀ s c, djb_hash (s ++ [c]) = djb_step_mod32 (djb_hash s) c) ∧
  djb_hash (b "dave") = 2087378131 ∧
  djb_hash (b "davedavedavedavedave") = 3529598163.
Proof.
  assert (∀ s h, fold_left (λ h c, Z.land (Z.lxor ((h ≪ 5) + h) (ord c))
                                      0xffffffff) s h
                 = fold_left djb_step_mod32 s h) as Hfold.
  { induction s as [|c s IH]; intros h; [done|].
    cbn [fold_left]. by rewrite djb_step_eq, IH. }
  split; [intros s; apply Hfold|]. split; [done|].
  split; [|split; reflexivity].
  intros s c. unfold djb_hash. by rewrite fold_left_app, <- djb_step_eq.
Qed.

(** C9: [might_mask] hands back every function other than the builtin
    [hash] as it is, so [djb_hash] and a user's function are never masked,
    even where they return more than 32 bits; the builtin [hash] is
    wrapped in a 32-bit mask exactly when its value on "dave" is not the
    magic number. *)
Theorem might_mask_only_builtin (builtin : bytes → Z) (_magic : Z) :
  (∀ f, might_mask builtin (Fn f) _magic = Fn f) ∧
  might_mask builtin (Fn djb_hash) magic = Fn djb_hash ∧
  (∀ s, call builtin (might_mask builtin (Fn (λ _, 2 ^ 40)) magic) s = 2 ^ 40) ∧
  might_mask builtin Builtin _magic =
    (if builtin (b "dave") =? _magic then Builtin
     else Fn (λ s, Z.land (builtin s) 0xffffffff)).
Proof.
  repeat split. unfold might_mask; cbn [is_hash andb call].
  by destruct (_ =? _).
Qed.

(** ** Images *)

Lemma reader_image builtin fn items :
  reader builtin fn (image builtin fn items) =
  Ok (Reader.Make (image builtin fn items) None None (hash_of builtin fn)).
Proof.
  apply reader_ok. image_size builtin fn items. lia.
Qed.

(** C3: the sequential scan of a built image runs from offset 2048 to
    [table_start], the least table offset of the 256 header entries, and
    yields the pairs that were put, each once, in the order of the [put]
    calls; so do [keys] and [values]. *)
Theorem iteritems_complete builtin fn items :
  len (image builtin fn items) < 2 ^ 32 →
  ∃ r hd,
    reader builtin fn (image builtin fn items) = Ok r ∧
    Reader.header r = Ok hd ∧
    Reader.table_start (Reader.iteritems r).1 = Some (Reader.min_of (hd.*1)) ∧
    Reader.min_of (hd.*1) = 2048 + len (concat (record <$> items)) ∧
    (Reader.iteritems r).2 = gen_of_list items ∧
    gen_list (Reader.iteritems r).2 = Ok items ∧
    (Reader.keys r).2 = Ok (items.*1) ∧
    (Reader.values r).2 = Ok (items.*2).
Proof.
  intros Hsz.
  destruct (iteritems_image builtin fn items _ (reader_image _ _ _) Hsz)
    as (hd & Hhd & Hts & Hmin & Hit).
  eexists _, hd. split; [apply reader_image|]. repeat (split; [done|]).
  unfold Reader.keys, Reader.values.
  destruct (Reader.iteritems _) as [r' g]. cbn [snd] in *. subst g.
  by rewrite !gen_map_of_list, !gen_list_of_list.
Qed.

Lemma iteritems_complete_witness :
  ∃ r hd,
    reader builtin32 (Fn djb_hash) (image builtin32 (Fn djb_hash) dave_items)
      = Ok r ∧
    Reader.header r = Ok hd ∧
    Reader.table_start (Reader.iteritems r).1 = Some (Reader.min_of (hd.*1)) ∧
    Reader.min_of (hd.*1) = 2048 + len (concat (record <$> dave_items)) ∧
    (Reader.iteritems r).2 = gen_of_list dave_items ∧
    gen_list (Reader.iteritems r).2 = Ok dave_items ∧
    (Reader.keys r).2 = Ok (dave_items.*1) ∧
    (Reader.values r).2 = Ok (dave_items.*2).
Proof.
  apply (iteritems_complete builtin32 (Fn djb_hash) dave_items).
  vm_compute. reflexivity.
Defined.

Lemma index_lengths builtin fn items :
  let ix := index_from (2048 + len (concat (record <$> items)))
              (buckets (entry (hash_of builtin fn) <$> layout 2048 items)) in
  ix.*2 = (λ i : nat, 2 * len (filter (λ kv, hash_of builtin fn kv.1 `mod` 256
                                             = Z.of_nat i) items)) <$> seq 0 256
  ∧ foldr Z.add 0 (ix.*2) = 2 * len items.
Proof.
  intros ix. split.
  - apply list_eq. intros i. rewrite !list_lookup_fmap.
    destruct (decide (i < 256)%nat) as [Hi|Hi].
    + destruct (index_from_lookup
                  (buckets (entry (hash_of builtin fn) <$> layout 2048 items))
                  (2048 + len (concat (record <$> items))) i _
                  (buckets_lookup _ i Hi)) as (off & Hoff).
      unfold ix. rewrite Hoff.
      rewrite lookup_seq_lt by done. cbn [fmap option_fmap option_map snd].
      f_equal. rewrite shiftl_1. unfold len.
      by rewrite length_bucket_entries.
    + rewrite lookup_seq_ge by lia.
      rewrite (proj2 (lookup_ge_None _ _)); [done|].
      unfold ix. rewrite length_index_from, length_buckets. lia.
  - unfold ix. rewrite sum_index_from. unfold len.
    by rewrite length_concat_buckets, length_fmap, length_layout.
Qed.

(** C4: in a finalized image the table length of the header entry of
    bucket [i], for each of the 256 buckets, is twice the number of
    records whose key hash is [i] modulo 256, and the 256 table lengths
    add up to twice the number of records. *)
Theorem table_length_twice_bucket builtin fn items :
  len (image builtin fn items) < 2 ^ 32 →
  ∃ r hd,
    reader builtin fn (image builtin fn items) = Ok r ∧
    Reader.header r = Ok hd ∧
    hd.*2 = (λ i : nat,
               2 * len (filter (λ kv, hash_of builtin fn kv.1 `mod` 256
                                      = Z.of_nat i) items)) <$> seq 0 256 ∧
    foldr Z.add 0 (hd.*2) = 2 * len items.
Proof.
  intros Hsz. eexists _, _. split; [apply reader_image|].
  split; [by apply header_image|]. apply index_lengths.
Qed.

Lemma table_length_twice_bucket_witness :
  ∃ r hd,
    reader builtin32 (Fn djb_hash) (image builtin32 (Fn djb_hash) dave_items)
      = Ok r ∧
    Reader.header r = Ok hd ∧
    hd.*2 = (λ i : nat,
               2 * len (filter (λ kv, hash_of builtin32 (Fn djb_hash) kv.1
                                        `mod` 256 = Z.of_nat i) dave_items))
            <$> seq 0 256 ∧
    foldr Z.add 0 (hd.*2) = 2 * len dave_items.
Proof.
  apply (table_length_twice_bucket builtin32 (Fn djb_hash) dave_items).
  vm_compute. reflexivity.
Defined.

(** C6: [len(reader)] over an image built by N [put] calls is the sum of
    the table lengths of the 256 header entries, which is 2 * N. *)
Theorem len_twice_records builtin fn items :
  len (image builtin fn items) < 2 ^ 32 →
  ∃ r hd,
    reader builtin fn (image builtin fn items) = Ok r ∧
    Reader.header r = Ok hd ∧
    (Reader.__len__ r).2 = Ok (foldr Z.add 0 (hd.*2)) ∧
    (Reader.__len__ r).2 = Ok (2 * len items) ∧
    Reader.length (Reader.__len__ r).1 = Some (2 * len items).
Proof.
  intros Hsz. eexists _, _. split; [apply reader_image|].
  split; [by apply header_image|].
  unfold Reader.__len__; cbn [Reader.length].
  rewrite (header_image builtin fn items) by done. cbn [fst snd Reader.length].
  destruct (index_lengths builtin fn items) as [_ ->]. done.
Qed.

Lemma len_twice_records_witness :
  ∃ r hd,
    reader builtin32 (Fn djb_hash) (image builtin32 (Fn djb_hash) dave_items)
      = Ok r ∧
    Reader.header r = Ok hd ∧
    (Reader.__len__ r).2 = Ok (foldr Z.add 0 (hd.*2)) ∧
    (Reader.__len__ r).2 = Ok (2 * len dave_items) ∧
    Reader.length (Reader.__len__ r).1 = Some (2 * len dave_items).
Proof.
  apply (len_twice_records builtin32 (Fn djb_hash) dave_items).
  vm_compute. reflexivity.
Defined.

(** C10: a writer that is finalized without any [put] leaves an image of
    2048 bytes whose 256 header entries are all [(2048, 0)]; a reader
    accepts it, reports length 0, enumerates nothing and finds no key. *)
Theorem empty_database builtin fn :
  len (image builtin fn []) = 2048 ∧
  image builtin fn [] = enc_tbl (replicate 256 (2048, 0)) ∧
  ∃ r,
    reader builtin fn (image builtin fn []) = Ok r ∧
    Reader.header r = Ok (replicate 256 (2048, 0)) ∧
    (Reader.__len__ r).2 = Ok 0 ∧
    (Reader.iteritems r).2 = Stop ∧
    (Reader.keys r).2 = Ok [] ∧
    ∀ key, Reader.gets r key = Stop.
Proof.
  assert (image builtin fn [] = enc_tbl (replicate 256 (2048, 0))) as Himg
    by (vm_compute; reflexivity).
  assert (len (image builtin fn []) < 2 ^ 32) as Hsz
    by (rewrite Himg; vm_compute; reflexivity).
  split; [rewrite Himg; vm_compute; reflexivity|]. split; [done|].
  eexists. split; [apply reader_image|].
  split; [|split; [|split; [|split]]].
  - rewrite (header_image builtin fn []) by done. reflexivity.
  - unfold Reader.__len__; cbn [Reader.length].
    rewrite (header_image builtin fn []) by done. reflexivity.
  - destruct (iteritems_image builtin fn [] _ (reader_image _ _ _) Hsz)
      as (hd & _ & _ & _ & ->). done.
  - unfold Reader.keys.
    destruct (iteritems_image builtin fn [] _ (reader_image _ _ _) Hsz)
      as (hd & _ & _ & _ & Hit).
    destruct (Reader.iteritems _) as [r' g]. cbn [snd] in *. by subst g.
  - intros key.
    by apply (gets_empty_bucket builtin fn [] _ key (reader_image _ _ _) Hsz).
Qed.

(** ** Lookup *)

Lemma get_of_gets {D} r key (default : option D) vs :
  Reader.gets r key = gen_of_list vs →
  Reader.get r key default =
  match vs, default with
  | v :: _, _ => Ok (inl v)
  | [], Some d => Ok (inr d)
  | [], None => Raise (KeyError key)
  end.
Proof.
  intros Hg. unfold Reader.get. rewrite Hg.
  by destruct default, vs.
Qed.

(** C7: for a key that was never put, [gets] yields nothing, [get]
    without a default raises [KeyError], and [get] with a default returns
    that very default, whatever it is. *)
Theorem absent_key builtin fn items key :
  len (image builtin fn items) < 2 ^ 32 →
  key ∉ items.*1 →
  ∃ r,
    reader builtin fn (image builtin fn items) = Ok r ∧
    Reader.gets r key = Stop ∧
    Reader.get r key (@None unit) = Raise (KeyError key) ∧
    ∀ (D : Type) (d : D), Reader.get r key (Some d) = Ok (inr d).
Proof.
  intros Hsz Hkey. eexists. split; [apply reader_image|].
  pose proof (gets_absent builtin fn items _ key (reader_image _ _ _) Hsz Hkey)
    as Hg.
  split; [done|]. split.
  - by rewrite (get_of_gets _ _ _ []).
  - intros D d. by rewrite (get_of_gets _ _ _ []).
Qed.

Lemma absent_key_witness :
  ∃ r,
    reader builtin32 (Fn djb_hash) (image builtin32 (Fn djb_hash) dave_items)
      = Ok r ∧
    Reader.gets r (b "junk") = Stop ∧
    Reader.get r (b "junk") (@None unit) = Raise (KeyError (b "junk")) ∧
    ∀ (D : Type) (d : D), Reader.get r (b "junk") (Some d) = Ok (inr d).
Proof.
  apply (absent_key builtin32 (Fn djb_hash) dave_items (b "junk")).
  - vm_compute. reflexivity.
  - apply (bool_decide_unpack _). vm_compute. exact I.
Defined.

(** C1, as amended: when the hashes of the keys put are 32-bit values
    and the image is below 2^32 bytes, a reader with the writer's hash
    function yields for every key whose hash is not zero exactly the
    values put under it, as often as they were put and in the order of
    the [put] calls, also when keys with hash zero are in the database;
    [get] returns the first of them.  A key whose hash is zero yields
    nothing. *)
Theorem gets_round_trip builtin fn items :
  len (image builtin fn items) < 2 ^ 32 →
  Forall (λ kv, 0 ≤ hash_of builtin fn kv.1 < 2 ^ 32) items →
  ∃ r,
    reader builtin fn (image builtin fn items) = Ok r ∧
    ∀ key,
      let found :=
        if decide (hash_of builtin fn key = 0) then []
        else values_of key items in
      Reader.gets r key = gen_of_list found ∧
      Reader.get r key (@None unit) =
        match found with
        | v :: _ => Ok (inl v)
        | [] => Raise (KeyError key)
        end.
Proof.
  intros Hsz Hh. eexists. split; [apply reader_image|]. intros key found.
  assert (Reader.gets
            (Reader.Make (image builtin fn items) None None
               (hash_of builtin fn)) key = gen_of_list found) as Hg.
  { unfold found. destruct (decide (hash_of builtin fn key = 0)) as [Hz|Hnz].
    - by apply (gets_zero_hash builtin fn items _ key (reader_image _ _ _)).
    - by apply (gets_image_any builtin fn items _ key (reader_image _ _ _)). }
  split; [done|]. by rewrite (get_of_gets _ _ _ _ Hg).
Qed.

Lemma gets_round_trip_witness :
  ∃ r,
    reader builtin32 (Fn djb_hash) (image builtin32 (Fn djb_hash) mixed_items)
      = Ok r ∧
    ∀ key,
      let found :=
        if decide (hash_of builtin32 (Fn djb_hash) key = 0) then []
        else values_of key mixed_items in
      Reader.gets r key = gen_of_list found ∧
      Reader.get r key (@None unit) =
        match found with
        | v :: _ => Ok (inl v)
        | [] => Raise (KeyError key)
        end.
Proof.
  apply (gets_round_trip builtin32 (Fn djb_hash) mixed_items).
  - vm_compute. reflexivity.
  - apply (bool_decide_unpack _). vm_compute. exact I.
Defined.

(** C1 as stated fails: "vpbzfti" hashes to zero under [djb_hash]; put
    once and read back, [gets] yields nothing. *)
Lemma gets_round_trip_zero_hash :
  djb_hash zero_key = 0 ∧
  ∃ r,
    reader builtin32 (Fn djb_hash)
      (image builtin32 (Fn djb_hash) [(zero_key, b "a")]) = Ok r ∧
    values_of zero_key [(zero_key, b "a")] = [b "a"] ∧
    Reader.gets r zero_key = Stop ∧
    Reader.gets r zero_key
      ≠ gen_of_list (values_of zero_key [(zero_key, b "a")]).
Proof.
  split; [reflexivity|]. eexists. split; [apply reader_image|].
  split; [reflexivity|].
  assert (Reader.gets
            (Reader.Make (image builtin32 (Fn djb_hash) [(zero_key, b "a")])
               None None (hash_of builtin32 (Fn djb_hash))) zero_key = Stop)
    as Hg by (vm_compute; reflexivity).
  split; [exact Hg|]. rewrite Hg. discriminate.
Qed.

(** C2, as amended: with a constant hash function whose value is a 32-bit
    number other than zero, every key still gets exactly the values put
    under it, never those of another key, although all keys collide. *)
Theorem constant_hash_lookup builtin (c : Z) items :
  0 < c < 2 ^ 32 →
  len (image builtin (Fn (λ _, c)) items) < 2 ^ 32 →
  ∃ r,
    reader builtin (Fn (λ _, c)) (image builtin (Fn (λ _, c)) items) = Ok r ∧
    (∀ key, Reader.hash r key = c) ∧
    ∀ key,
      Reader.gets r key = gen_of_list (values_of key items) ∧
      Reader.get r key (@None unit) =
        match values_of key items with
        | v :: _ => Ok (inl v)
        | [] => Raise (KeyError key)
        end.
Proof.
  intros Hc Hsz. eexists. split; [apply reader_image|]. split; [done|].
  intros key.
  assert (Forall (λ kv : bytes * bytes,
                    0 < hash_of builtin (Fn (λ _, c)) kv.1 < 2 ^ 32) items)
    as Hh by (apply Forall_forall; intros ? _; exact Hc).
  pose proof (gets_image builtin _ items _ key (reader_image _ _ _) Hsz Hh)
    as Hg.
  split; [done|]. by rewrite (get_of_gets _ _ _ _ Hg).
Qed.

Lemma constant_hash_lookup_witness :
  ∃ r,
    reader builtin32 (Fn (λ _, 1)) (image builtin32 (Fn (λ _, 1)) dave_items)
      = Ok r ∧
    (∀ key, Reader.hash r key = 1) ∧
    ∀ key,
      Reader.gets r key = gen_of_list (values_of key dave_items) ∧
      Reader.get r key (@None unit) =
        match values_of key dave_items with
        | v :: _ => Ok (inl v)
        | [] => Raise (KeyError key)
        end.
Proof.
  apply (constant_hash_lookup builtin32 1 dave_items).
  - lia.
  - vm_compute. reflexivity.
Defined.

(** C2 as stated fails for the constant hash function 0: the key that was
    put is not found. *)
Lemma constant_hash_zero_lost :
  ∃ r,
    reader builtin32 (Fn (λ _, 0))
      (image builtin32 (Fn (λ _, 0)) [(b "one", b "1"); (b "two", b "2")])
      = Ok r ∧
    Reader.gets r (b "one") = Stop ∧
    Reader.get r (b "two") (@None unit) = Raise (KeyError (b "two")) ∧
    Reader.gets r (b "one")
      ≠ gen_of_list
          (values_of (b "one") [(b "one", b "1"); (b "two", b "2")]).
Proof.
  eexists. split; [apply reader_image|].
  assert (Reader.gets
            (Reader.Make
               (image builtin32 (Fn (λ _, 0))
                  [(b "one", b "1"); (b "two", b "2")])
               None None (hash_of builtin32 (Fn (λ _, 0)))) (b "one") = Stop)
    as Hg by (vm_compute; reflexivity).
  split; [exact Hg|]. split; [vm_compute; reflexivity|].
  rewrite Hg. discriminate.
Qed.

(** ** Placement in [finalize] *)

Lemma occupied_iff (s : slot) : occupied s = true ↔ s.1 ≠ 0.
Proof. unfold occupied. destruct (Z.eqb_spec s.1 0); naive_solver. Qed.

(** C5, as amended: in a bucket with n >= 1 pending entries, each entry,
    taken in the order it was put, goes to the first slot with hash field
    0 met from its home slot [(h >> 8) mod 2n] on, wrapping around, and
    there always is one; that slot is still [(0, 0)] or holds an earlier
    entry whose hash is zero, so no entry with another hash is ever
    overwritten; and the slots of the finished table whose hash field is
    not zero are the pending entries with hash other than zero, each
    once.  (An entry with hash zero may be overwritten by a later one.) *)
Theorem finalize_placement (tbl : list slot) :
  tbl ≠ [] →
  let length := len tbl ≪ 1 in
  (∀ i pair, tbl !! i = Some pair →
     ∃ a e c s,
       Writer.probe_order (Z.to_nat ((pair.1 ≫ 8) `mod` length))
         (Z.to_nat length) = a ++ e :: c ∧
       Forall (λ j, (placed tbl i !!! j).1 ≠ 0) a ∧
       placed tbl i !! e = Some s ∧ s.1 = 0 ∧
       (s = (0, 0) ∨ s ∈ take i tbl) ∧
       placed tbl (S i) = <[e:=pair]> (placed tbl i)) ∧
  placed tbl (List.length tbl) = Writer.order_table tbl ∧
  filter (λ s, s.1 ≠ 0) (Writer.order_table tbl)
    ≡ₚ filter (λ s, s.1 ≠ 0) tbl.
Proof.
  intros Hne length.
  set (L := (2 * List.length tbl)%nat).
  assert (length = Z.of_nat L) as HL by apply len_shiftl_1.
  assert (0 < List.length tbl)%nat as Hpos by (destruct tbl; [done|simpl; lia]).
  split; [|split].
  - intros i pair Hi. pose proof (lookup_lt_Some _ _ _ Hi) as Hlt.
    unfold placed. fold length. rewrite HL, Nat2Z.id.
    destruct (fold_order_step_any L (take i tbl) (replicate L (0, 0)) [])
      as (Hch & Hperm & _);
      try (rewrite ?length_take; cbn [List.length]; unfold L; lia).
    { apply chained_replicate. }
    { by rewrite filter_replicate_free. }
    cbn zeta in Hch, Hperm. rewrite app_nil_l in Hperm.
    set (T := fold_left (Writer.order_step (Z.of_nat L)) (take i tbl)
                (replicate L (0, 0))) in *.
    destruct (order_step_any L T (take i tbl) pair)
      as (a & e & c & Heq & Ha & He & Hlt' & Hstep & _);
      try done; try (rewrite ?length_take; unfold L; lia).
    destruct Hch as [HlenT _].
    pose proof (list_lookup_lookup_total_lt T e ltac:(lia)) as HTe.
    exists a, e, c, (T !!! e). split; [exact Heq|].
    split; [|split; [exact HTe|split; [|split]]].
    + eapply Forall_impl; [exact Ha|]. intros j. by rewrite occupied_iff.
    + unfold occupied in He. by destruct (Z.eqb_spec (T !!! e).1 0).
    + assert (Forall (λ s, s = (0, 0) ∨ s ∈ take i tbl) T) as HT.
      { apply fold_order_step_Forall.
        - apply Forall_replicate. by left.
        - apply Forall_forall. by right. }
      eapply Forall_lookup in HT; [|exact HTe]. exact HT.
    + rewrite (take_S_r _ _ _ Hi), fold_left_app. cbn [fold_left].
      exact Hstep.
  - unfold placed, Writer.order_table. by rewrite firstn_all.
  - destruct (order_table_any tbl Hne) as (_ & Hperm & _).
    erewrite (list_filter_iff _ (λ s, occupied s = true));
      [|intros s; by rewrite occupied_iff].
    rewrite Hperm.
    erewrite list_filter_iff; [done|]. intros s. by rewrite occupied_iff.
Qed.

Lemma finalize_placement_witness :
  let length := len mixed_bucket ≪ 1 in
  (∀ i pair, mixed_bucket !! i = Some pair →
     ∃ a e c s,
       Writer.probe_order (Z.to_nat ((pair.1 ≫ 8) `mod` length))
         (Z.to_nat length) = a ++ e :: c ∧
       Forall (λ j, (placed mixed_bucket i !!! j).1 ≠ 0) a ∧
       placed mixed_bucket i !! e = Some s ∧ s.1 = 0 ∧
       (s = (0, 0) ∨ s ∈ take i mixed_bucket) ∧
       placed mixed_bucket (S i) = <[e:=pair]> (placed mixed_bucket i)) ∧
  placed mixed_bucket (List.length mixed_bucket)
    = Writer.order_table mixed_bucket ∧
  filter (λ s, s.1 ≠ 0) (Writer.order_table mixed_bucket)
    ≡ₚ filter (λ s, s.1 ≠ 0) mixed_bucket.
Proof.
  apply (finalize_placement mixed_bucket).
  vm_compute. discriminate.
Defined.

(** C5 as stated fails when a pending entry has hash zero: put twice, the
    key "vpbzfti" leaves two entries in bucket 0; the second is stored
    over the first, which is in no slot of the finished table. *)
Lemma finalize_zero_hash_overwritten :
  Writer._unordered (written builtin32 (Fn djb_hash) zero_items) !! 0%nat
    = Some zero_bucket ∧
  placed zero_bucket 1 = [(0, 2048); (0, 0); (0, 0); (0, 0)] ∧
  placed zero_bucket 2 = [(0, 2064); (0, 0); (0, 0); (0, 0)] ∧
  Writer.order_table zero_bucket = [(0, 2064); (0, 0); (0, 0); (0, 0)] ∧
  (0, 2048) ∈ zero_bucket ∧
  (0, 2048) ∉ Writer.order_table zero_bucket.
Proof.
  repeat split; try (vm_compute; reflexivity).
  - left.
  - apply (bool_decide_unpack _). vm_compute. exact I.
Qed.

(** * Further properties *)

(** ** The size of an image *)

Lemma len_records items :
  len (concat (record <$> items)) =
  foldr (λ kv n, 8 + len kv.1 + len kv.2 + n) 0 items.
Proof.
  induction items as [|[k v] items IH]; [done|].
  rewrite len_records_cons, len_record, IH. simpl. lia.
Qed.

Lemma len_tables tbls : len (tables tbls) = 16 * len (concat tbls).
Proof.
  induction tbls as [|tbl tbls IH]; [done|].
  rewrite len_tables_cons, IH, shiftl_1. cbn [concat]. rewrite len_app. lia.
Qed.

(** X1: whatever is put and whatever the hash function, the finalized
    file has 2048 header bytes, 8 + len(key) + len(value) bytes for each
    pair and 16 bytes of table for each pair, and a reader accepts it. *)
Theorem image_size_accepted builtin fn items :
  len (image builtin fn items) =
    2048 + foldr (λ kv n, 8 + len kv.1 + len kv.2 + n) 0 items
    + 16 * len items ∧
  ∃ r, reader builtin fn (image builtin fn items) = Ok r ∧
       Reader.data r = image builtin fn items ∧
       Reader.table_start r = None ∧ Reader.length r = None.
Proof.
  split.
  - rewrite len_image, len_records, len_tables. unfold len.
    by rewrite length_concat_buckets, length_fmap, length_layout.
  - eexists. split; [apply reader_image|done].
Qed.

(** ** The hash functions stay within 32 bits *)

Lemma djb_fold_range s : ∀ h,
  0 ≤ h < 2 ^ 32 →
  0 ≤ fold_left (λ h c, Z.land (Z.lxor ((h ≪ 5) + h) (ord c)) 0xffffffff) s h
    < 2 ^ 32.
Proof.
  induction s as [|c s IH]; intros h Hh; [done|].
  cbn [fold_left]. apply IH.
  change 0xffffffff with (Z.ones 32). rewrite Z.land_ones by lia.
  apply Z.mod_pos_bound. lia.
Qed.

(** X2: [djb_hash] of any byte string is an unsigned 32-bit number, and
    it is also what a writer or reader given [djb_hash] computes. *)
Theorem djb_hash_range builtin s :
  0 ≤ djb_hash s < 2 ^ 32 ∧ hash_of builtin (Fn djb_hash) s = djb_hash s.
Proof. split; [apply djb_fold_range; lia|done]. Qed.

(** X3: when the builtin [hash] does not send "dave" to the magic
    number, a writer or reader given the builtin computes its value
    modulo 2^32 for every key, an unsigned 32-bit number even where the
    builtin's value is negative or wider. *)
Theorem builtin_hash_masked builtin s :
  builtin (b "dave") ≠ magic →
  hash_of builtin Builtin s = builtin s `mod` 2 ^ 32 ∧
  0 ≤ hash_of builtin Builtin s < 2 ^ 32.
Proof.
  intros Hm. unfold hash_of, might_mask; cbn [is_hash andb].
  destruct (Z.eqb_spec (builtin (b "dave")) magic); [done|]. cbn [negb call].
  change 0xffffffff with (Z.ones 32). rewrite Z.land_ones by lia.
  split; [done|]. apply Z.mod_pos_bound. lia.
Qed.

Lemma builtin_hash_masked_witness :
  hash_of builtin64 Builtin (b "dave") = builtin64 (b "dave") `mod` 2 ^ 32 ∧
  0 ≤ hash_of builtin64 Builtin (b "dave") < 2 ^ 32.
Proof.
  apply (builtin_hash_masked builtin64 (b "dave")).
  vm_compute. discriminate.
Defined.

(** ** The loops of the reader end *)

Lemma records_yields_bound data table_start fuel : ∀ pos,
  8 * len (gen_yields (Reader.records data table_start fuel pos))
  ≤ Z.max 0 (table_start - pos + 7).
Proof.
  assert (8 * len (gen_yields (@Stop (bytes * bytes))) = 0) as Hstop by done.
  assert (∀ e, 8 * len (gen_yields (@Throw (bytes * bytes) e)) = 0) as Hthrow
    by done.
  induction fuel as [|fuel IH]; intros pos; cbn [Reader.records].
  - destruct (pos <? table_start); rewrite Hstop; lia.
  - destruct (Z.ltb_spec pos table_start); [|rewrite Hstop; lia].
    destruct (read_2_le4 _) as [[klen dlen]|] eqn:Hr; [|rewrite Hthrow; lia].
    apply read_2_le4_nonneg in Hr. cbn [gen_yields].
    specialize (IH (pos + 8 + klen + dlen)).
    unfold len in *. cbn [List.length]. lia.
Qed.

(** X4: the scanning loop of [iteritems] ends on any data, well formed or
    not: every round moves the cursor forward by at least eight bytes,
    so [table_start - pos] rounds are never used up, and at most
    [(table_start - pos + 7) / 8] records are yielded. *)
Theorem iteritems_loop_ends data table_start pos (more : nat) :
  Reader.records data table_start (Z.to_nat (table_start - pos) + more) pos
  = Reader.records data table_start (Z.to_nat (table_start - pos)) pos ∧
  8 * len (gen_yields
             (Reader.records data table_start
                (Z.to_nat (table_start - pos)) pos))
  ≤ Z.max 0 (table_start - pos + 7).
Proof.
  split; [apply records_fuel; lia|apply records_yields_bound].
Qed.

Lemma probe_yields_bound self h key poss :
  (List.length (gen_yields (Reader.probe self h key poss))
   ≤ List.length poss)%nat.
Proof.
  induction poss as [|pos poss IH]; cbn [Reader.probe]; [simpl; lia|].
  destruct (read_2_le4 _) as [[rec_h rec_pos]|]; [|simpl; lia].
  destruct (rec_h =? 0); [simpl; lia|].
  destruct (rec_h =? h); [|simpl; lia].
  destruct (Reader._get_value _ _ _) as [[v|]|]; simpl; lia.
Qed.

(** X5: on any data, [gets] looks at each slot of the key's table at most
    once: it yields no more values than the table length its header
    entry states. *)
Theorem gets_one_pass self key start nslots :
  let h := Reader.hash self key in
  let idx := Z.land (h ≪ 3) 2047 in
  read_2_le4 (slice (Reader.data self) idx (idx + 8)) = Some (start, nslots) →
  len (gen_yields (Reader.gets self key)) ≤ nslots.
Proof.
  intros h idx Hr. unfold Reader.gets. fold h idx. rewrite Hr.
  pose proof (read_2_le4_nonneg _ _ _ Hr) as [_ Hn].
  destruct (Z.eqb_spec nslots 0) as [->|Hne]; [done|]. cbn [negb].
  set (w := (h ≫ 8) `mod` nslots).
  assert (0 ≤ w < nslots) as Hw by (apply Z.mod_pos_bound; lia).
  pose proof (xrange_probe start (Z.to_nat w) (Z.to_nat nslots) ltac:(lia))
    as Hx.
  rewrite !Z2Nat.id in Hx by lia. rewrite Hx.
  etrans; [apply inj_le, probe_yields_bound|].
  rewrite length_fmap, (Permutation_length
                         (probe_order_perm (Z.to_nat w) (Z.to_nat nslots)
                            ltac:(lia))).
  rewrite length_seq. lia.
Qed.

Lemma gets_one_pass_witness :
  len (gen_yields
         (Reader.gets
            (Reader.Make (image builtin32 (Fn djb_hash) dave_items) None None
               djb_hash) (b "dave"))) ≤ 20.
Proof.
  apply (gets_one_pass
           (Reader.Make (image builtin32 (Fn djb_hash) dave_items) None None
              djb_hash) (b "dave") 2215 20).
  vm_compute. reflexivity.
Defined.

(** ** Caching *)

(** X6: what [iteritems] and [len] cache changes no answer: asked again
    on the reader they leave, each gives the same result and leaves the
    same reader, whose data is untouched. *)
Theorem caches_transparent (self : Reader.t) :
  Reader.iteritems (Reader.iteritems self).1 = Reader.iteritems self ∧
  Reader.__len__ (Reader.__len__ self).1 = Reader.__len__ self ∧
  Reader.data (Reader.iteritems self).1 = Reader.data self ∧
  Reader.data (Reader.__len__ self).1 = Reader.data self.
Proof.
  destruct self as [data ts ln H].
  unfold Reader.iteritems, Reader.__len__, Reader.header;
    cbn [Reader.data Reader.table_start Reader.length Reader.hash].
  destruct (mapM _ _) as [hd|] eqn:Hhd.
  - repeat split.
    + destruct ts as [n|]; [destruct (Z.eqb_spec n 0)|];
        cbn [fst snd Reader.data Reader.table_start]; rewrite ?Hhd;
        repeat match goal with
        | |- context [?x =? 0] => destruct (Z.eqb_spec x 0)
        end; try done; try lia.
    + destruct ln; cbn [fst Reader.length Reader.data]; by rewrite ?Hhd.
    + destruct ts as [n|]; [destruct (n =? 0)|]; done.
    + by destruct ln.
  - repeat split.
    + destruct ts as [n|]; [destruct (Z.eqb_spec n 0)|];
        cbn [fst snd Reader.data Reader.table_start]; rewrite ?Hhd;
        repeat match goal with
        | |- context [?x =? 0] => destruct (Z.eqb_spec x 0)
        end; try done; try lia.
    + destruct ln; cbn [fst Reader.length Reader.data]; by rewrite ?Hhd.
    + destruct ts as [n|]; [destruct (n =? 0)|]; done.
    + by destruct ln.
Qed.

(** ** The layout [finalize] leaves *)

Lemma laid_from_index tbls : ∀ pos,
  laid_from pos (index_from pos tbls) (pos + len (tables tbls)).
Proof.
  induction tbls as [|tbl tbls IH]; intros pos.
  - simpl. change (len (tables [])) with 0. lia.
  - cbn [index_from laid_from]. split; [done|].
    rewrite len_tables_cons, shiftl_1. pose proof (len_nonneg tbl).
    split; [lia|]. specialize (IH (pos + 8 * (2 * len tbl))).
    by rewrite Z.add_assoc.
Qed.

(** X7: the header of a finalized image has 256 entries, and the tables
    they point to lie one after the other in bucket order: the first
    starts where the records end, each next one starts where the one
    before ends, and the last ends at the end of the file. *)
Theorem header_tables_contiguous builtin fn items :
  len (image builtin fn items) < 2 ^ 32 →
  ∃ r hd,
    reader builtin fn (image builtin fn items) = Ok r ∧
    Reader.header r = Ok hd ∧
    List.length hd = 256%nat ∧
    laid_from (2048 + len (concat (record <$> items))) hd
      (len (image builtin fn items)).
Proof.
  intros Hsz. eexists _, _. split; [apply reader_image|].
  split; [by apply header_image|].
  split; [by rewrite length_index_from, length_buckets|].
  rewrite len_image. apply laid_from_index.
Qed.

Lemma header_tables_contiguous_witness :
  ∃ r hd,
    reader builtin32 (Fn djb_hash) (image builtin32 (Fn djb_hash) dave_items)
      = Ok r ∧
    Reader.header r = Ok hd ∧
    List.length hd = 256%nat ∧
    laid_from (2048 + len (concat (record <$> dave_items))) hd
      (len (image builtin32 (Fn djb_hash) dave_items)).
Proof.
  apply (header_tables_contiguous builtin32 (Fn djb_hash) dave_items).
  vm_compute. reflexivity.
Defined.

(** X8: in a finalized image, [_get_value] at the offset where [put]
    wrote a pair returns the pair's value when asked for its key and
    [None] when asked for any other key; the record lies between the
    header and the tables. *)
Theorem get_value_at_record builtin fn items p k v :
  len (image builtin fn items) < 2 ^ 32 →
  (p, (k, v)) ∈ layout 2048 items →
  ∃ r,
    reader builtin fn (image builtin fn items) = Ok r ∧
    2048 ≤ p ∧
    p + 8 + len k + len v ≤ 2048 + len (concat (record <$> items)) ∧
    ∀ key, Reader._get_value r p key =
           Ok (if decide (k = key) then Some v else None).
Proof.
  intros Hsz Hx. eexists. split; [apply reader_image|].
  pose proof (layout_bounds _ _ _ Hx) as Hb. cbn [fst snd] in Hb.
  rewrite len_record in Hb. split; [lia|]. split; [lia|]. intros key.
  destruct (get_value_layout builtin fn items _ key _
              (reader_image _ _ _) Hsz Hx) as [Hv _].
  exact Hv.
Qed.

Lemma get_value_at_record_witness :
  ∃ r,
    reader builtin32 (Fn djb_hash) (image builtin32 (Fn djb_hash) dave_items)
      = Ok r ∧
    2048 ≤ 2061 ∧
    2061 + 8 + len (b "dave") + len (b "1")
      ≤ 2048 + len (concat (record <$> dave_items)) ∧
    ∀ key, Reader._get_value r 2061 key =
           Ok (if decide (b "dave" = key) then Some (b "1") else None).
Proof.
  apply (get_value_at_record builtin32 (Fn djb_hash) dave_items).
  - vm_compute. reflexivity.
  - apply (bool_decide_unpack _). vm_compute. exact I.
Defined.

Lemma bucket_of_nat (i : nat) : (i < 256)%nat → bucket_of (Z.of_nat i) = i.
Proof. intros Hi. apply bucket_of_mod. rewrite Z.mod_small; lia. Qed.

(** X9: in a finalized image every slot of every table is either all
    zero or holds the hash (its low 32 bits) of a key that was put and
    the offset of that key's record, which lies in the record region; and
    the key's hash modulo 256 is the number of the bucket. *)
Theorem slots_point_to_records builtin fn items (i j : nat) :
  let H := hash_of builtin fn in
  let n := len (filter (λ kv, H kv.1 `mod` 256 = Z.of_nat i) items) in
  len (image builtin fn items) < 2 ^ 32 →
  (i < 256)%nat → Z.of_nat j < 2 * n →
  ∃ start h p,
    read_2_le4 (slice (image builtin fn items)
                  (8 * Z.of_nat i) (8 * Z.of_nat i + 8)) = Some (start, 2 * n) ∧
    read_2_le4 (slice (image builtin fn items)
                  (start + 8 * Z.of_nat j) (start + 8 * Z.of_nat j + 8))
      = Some (h, p) ∧
    ((h = 0 ∧ p = 0) ∨
     ∃ k v, (p, (k, v)) ∈ layout 2048 items ∧
            h = H k `mod` 2 ^ 32 ∧ H k `mod` 256 = Z.of_nat i ∧
            2048 ≤ p < 2048 + len (concat (record <$> items))).
Proof.
  intros H n Hsz Hi Hj.
  set (tbl := bucket i (entry H <$> layout 2048 items)).
  assert (len tbl ≪ 1 = 2 * n) as Hn.
  { rewrite shiftl_1. unfold len, n, tbl. by rewrite length_bucket_entries. }
  destruct (bucket_table builtin fn items (Z.of_nat i) Hsz)
    as (start & Hhd & Hhas).
  rewrite land_shiftl_3 in Hhd. rewrite bucket_of_nat in Hhd, Hhas by done.
  fold H tbl in Hhd, Hhas. rewrite Hn in Hhd.
  assert (j < List.length (Writer.order_table tbl))%nat as Hlt.
  { rewrite length_order_table. rewrite <- Hn, shiftl_1 in Hj.
    unfold len in Hj. lia. }
  pose proof (list_lookup_lookup_total_lt _ _ Hlt) as Hl.
  pose proof (read_slot _ _ _ _ _ Hhas Hl) as Hr.
  destruct (Writer.order_table tbl !!! j) as [g q] eqn:Hs.
  exists start, (g `mod` 2 ^ 32), (q `mod` 2 ^ 32).
  split; [exact Hhd|]. split; [exact Hr|].
  pose proof (order_table_slots tbl) as Hsl.
  eapply Forall_lookup in Hsl; [|exact Hl].
  destruct Hsl as [[= -> ->]|Hin]; [by left|right].
  unfold tbl, bucket in Hin.
  apply list_elem_of_filter in Hin as [Hb Hin]. cbn [fst] in Hb.
  apply list_elem_of_fmap in Hin as ([p [k v]] & [= -> ->] & Hx).
  cbn [fst snd] in *.
  pose proof (layout_bounds _ _ _ Hx) as Hbd. cbn [fst snd] in Hbd.
  pose proof (len_nonneg (record (k, v))). rewrite len_record in *.
  pose proof (len_nonneg k). pose proof (len_nonneg v).
  image_size builtin fn items.
  rewrite (Z.mod_small p) by lia.
  exists k, v. split; [done|]. split; [done|].
  split; [by apply bucket_of_mod|lia].
Qed.

Lemma slots_point_to_records_witness :
  let H := hash_of builtin32 (Fn djb_hash) in
  let n := len (filter (λ kv, H kv.1 `mod` 256 = Z.of_nat 211) dave_items) in
  ∃ start h p,
    read_2_le4 (slice (image builtin32 (Fn djb_hash) dave_items)
                  (8 * Z.of_nat 211) (8 * Z.of_nat 211 + 8))
      = Some (start, 2 * n) ∧
    read_2_le4 (slice (image builtin32 (Fn djb_hash) dave_items)
                  (start + 8 * Z.of_nat 3) (start + 8 * Z.of_nat 3 + 8))
      = Some (h, p) ∧
    ((h = 0 ∧ p = 0) ∨
     ∃ k v, (p, (k, v)) ∈ layout 2048 dave_items ∧
            h = H k `mod` 2 ^ 32 ∧ H k `mod` 256 = Z.of_nat 211 ∧
            2048 ≤ p < 2048 + len (concat (record <$> dave_items))).
Proof.
  apply (slots_point_to_records builtin32 (Fn djb_hash) dave_items 211 3).
  - vm_compute. reflexivity.
  - lia.
  - vm_compute. reflexivity.
Defined.

(** ** Lookup with the default hash function *)

(** X10: with [djb_hash], the default of writer and reader, the only
    keys that are not read back are those it sends to zero: when no key
    put has hash zero, [gets] yields for every key exactly the values put
    under it, in the order they were put. *)
Theorem default_hash_round_trip builtin items :
  len (image builtin (Fn djb_hash) items) < 2 ^ 32 →
  Forall (λ kv, djb_hash kv.1 ≠ 0) items →
  ∃ r,
    reader builtin (Fn djb_hash) (image builtin (Fn djb_hash) items) = Ok r ∧
    ∀ key, Reader.gets r key = gen_of_list (values_of key items).
Proof.
  intros Hsz Hnz. eexists. split; [apply reader_image|]. intros key.
  apply (gets_image builtin (Fn djb_hash) items); [apply reader_image|done|].
  eapply Forall_impl; [exact Hnz|]. cbv beta. intros kv Hkv.
  change (hash_of builtin (Fn djb_hash) kv.1) with (djb_hash kv.1).
  pose proof (djb_fold_range kv.1 5381 ltac:(lia)) as Hr.
  fold (djb_hash kv.1) in Hr. lia.
Qed.

Lemma default_hash_round_trip_witness :
  ∃ r,
    reader builtin32 (Fn djb_hash) (image builtin32 (Fn djb_hash) dave_items)
      = Ok r ∧
    ∀ key, Reader.gets r key = gen_of_list (values_of key dave_items).
Proof.
  apply (default_hash_round_trip builtin32 dave_items).
  - vm_compute. reflexivity.
  - apply (bool_decide_unpack _). vm_compute. exact I.
Defined.

(** ** Membership *)

Lemma values_of_nil key items : values_of key items = [] ↔ key ∉ items.*1.
Proof.
  unfold values_of. induction items as [|[k v] items IH].
  { split; [intros _; apply not_elem_of_nil|done]. }
  rewrite filter_cons, fmap_cons, not_elem_of_cons. cbn [fst].
  destruct (decide (k = key)) as [->|Hne].
  - split; [done|]. by intros [? _].
  - rewrite IH. split; [by split|by intros [_ ?]].
Qed.

(** X11: when no key put hashes to zero (hashes being 32-bit values),
    [key in reader] is true exactly for the keys that were put. *)
Theorem contains_iff_put builtin fn items key :
  len (image builtin fn items) < 2 ^ 32 →
  Forall (λ kv, 0 < hash_of builtin fn kv.1 < 2 ^ 32) items →
  ∃ r,
    reader builtin fn (image builtin fn items) = Ok r ∧
    Reader.__contains__ r key = Ok (bool_decide (key ∈ items.*1)) ∧
    Reader.has_key r key = Ok (bool_decide (key ∈ items.*1)).
Proof.
  intros Hsz Hh. eexists. split; [apply reader_image|].
  pose proof (gets_image builtin fn items _ key (reader_image _ _ _) Hsz Hh)
    as Hg.
  unfold Reader.has_key, Reader.__contains__.
  rewrite (get_of_gets _ _ _ _ Hg).
  destruct (values_of key items) as [|v vs] eqn:Hv.
  - apply values_of_nil in Hv. by rewrite bool_decide_eq_false_2.
  - rewrite bool_decide_eq_true_2; [done|].
    destruct (decide (key ∈ items.*1)) as [|Hn]; [done|].
    apply values_of_nil in Hn. congruence.
Qed.

Lemma contains_iff_put_witness :
  ∃ r,
    reader builtin32 (Fn djb_hash) (image builtin32 (Fn djb_hash) dave_items)
      = Ok r ∧
    Reader.__contains__ r (b "dave_no_dups")
      = Ok (bool_decide (b "dave_no_dups" ∈ dave_items.*1)) ∧
    Reader.has_key r (b "dave_no_dups")
      = Ok (bool_decide (b "dave_no_dups" ∈ dave_items.*1)).
Proof.
  apply (contains_iff_put builtin32 (Fn djb_hash) dave_items).
  - vm_compute. reflexivity.
  - apply (bool_decide_unpack _). vm_compute. exact I.
Defined.

(** ** [puts] and [putkey] *)

Lemma written_app builtin fn items more :
  written builtin fn (items ++ more) =
  fold_left (λ w kv, Writer.put w kv.1 kv.2) more (written builtin fn items).
Proof. unfold written. by rewrite fold_left_app. Qed.

Lemma puts_written builtin fn items key values :
  Writer.puts (written builtin fn items) key values =
  written builtin fn (items ++ ((λ v, (key, v)) <$> values)).
Proof.
  rewrite written_app. unfold Writer.puts.
  generalize (written builtin fn items).
  induction values as [|v values IH]; intros w; [done|].
  cbn [fold_left fmap list_fmap fst snd]. apply IH.
Qed.

Lemma values_of_app key items more :
  values_of key (items ++ more) = values_of key items ++ values_of key more.
Proof. unfold values_of. by rewrite filter_app, fmap_app. Qed.

Lemma values_of_same key values :
  values_of key ((λ v, (key, v)) <$> values) = values.
Proof.
  unfold values_of. induction values as [|v values IH]; [done|].
  rewrite fmap_cons, filter_cons. cbn [fst].
  rewrite decide_True by done. by rewrite fmap_cons, IH.
Qed.

(** X12: [puts] is [put] once for each value, in order: on a writer that
    has put [items] it leaves the writer that has put [items] and then
    the key with each value; and (no hash zero, hashes 32-bit) a reader of
    the finalized file gets, under that key, the values put before
    followed by these. *)
Theorem puts_then_gets builtin fn items key values :
  let items' := items ++ ((λ v, (key, v)) <$> values) in
  len (image builtin fn items') < 2 ^ 32 →
  Forall (λ kv, 0 < hash_of builtin fn kv.1 < 2 ^ 32) items →
  0 < hash_of builtin fn key < 2 ^ 32 →
  Writer.puts (written builtin fn items) key values = written builtin fn items' ∧
  ∃ r,
    reader builtin fn
      (finished (Writer.puts (written builtin fn items) key values)) = Ok r ∧
    Reader.gets r key = gen_of_list (values_of key items ++ values).
Proof.
  intros items' Hsz Hh Hk. split; [apply puts_written|].
  rewrite puts_written. fold items'. change (finished _) with (image builtin fn items').
  eexists. split; [apply reader_image|].
  rewrite (gets_image builtin fn items' _ key (reader_image _ _ _) Hsz).
  - unfold items'. by rewrite values_of_app, values_of_same.
  - apply Forall_app. split; [done|].
    apply Forall_fmap, Forall_forall. by intros v _.
Qed.

Lemma puts_then_gets_witness :
  Writer.puts (written builtin32 (Fn djb_hash) dave_items) (b "art")
    [b "x"; b "y"]
  = written builtin32 (Fn djb_hash)
      (dave_items ++ ((λ v, (b "art", v)) <$> [b "x"; b "y"])) ∧
  ∃ r,
    reader builtin32 (Fn djb_hash)
      (finished (Writer.puts (written builtin32 (Fn djb_hash) dave_items)
                   (b "art") [b "x"; b "y"])) = Ok r ∧
    Reader.gets r (b "art")
      = gen_of_list (values_of (b "art") dave_items ++ [b "x"; b "y"]).
Proof.
  apply (puts_then_gets builtin32 (Fn djb_hash) dave_items (b "art")
           [b "x"; b "y"]).
  - vm_compute. reflexivity.
  - apply (bool_decide_unpack _). vm_compute. exact I.
  - vm_compute. split; reflexivity.
Defined.

(** X13: a key written with [putkey] is there with the empty string as
    its value: (no hash zero, hashes 32-bit, key not put before) [get]
    returns the empty string rather than raising, [gets] yields it once,
    and [key in reader] is true. *)
Theorem putkey_empty_value builtin fn items key :
  len (image builtin fn (items ++ [(key, [])])) < 2 ^ 32 →
  Forall (λ kv, 0 < hash_of builtin fn kv.1 < 2 ^ 32) items →
  0 < hash_of builtin fn key < 2 ^ 32 →
  key ∉ items.*1 →
  ∃ r,
    reader builtin fn (finished (Writer.putkey (written builtin fn items) key))
      = Ok r ∧
    Reader.gets r key = Yield [] Stop ∧
    Reader.get r key (@None unit) = Ok (inl []) ∧
    Reader.__contains__ r key = Ok true.
Proof.
  intros Hsz Hh Hk Hnew.
  assert (Writer.putkey (written builtin fn items) key
          = written builtin fn (items ++ [(key, [])])) as ->
    by by rewrite written_app.
  change (finished _) with (image builtin fn (items ++ [(key, [])])).
  eexists. split; [apply reader_image|].
  assert (Reader.gets
            (Reader.Make (image builtin fn (items ++ [(key, [])])) None None
               (hash_of builtin fn)) key = gen_of_list [[]]) as Hg.
  { rewrite (gets_image builtin fn _ _ key (reader_image _ _ _) Hsz).
    - rewrite values_of_app, (proj2 (values_of_nil key items) Hnew).
      unfold values_of. rewrite filter_cons, decide_True by done. done.
    - apply Forall_app. split; [done|]. by apply Forall_singleton. }
  split; [exact Hg|]. unfold Reader.__contains__.
  by rewrite !(get_of_gets _ _ _ _ Hg).
Qed.

Lemma putkey_empty_value_witness :
  ∃ r,
    reader builtin32 (Fn djb_hash)
      (finished (Writer.putkey (written builtin32 (Fn djb_hash) dave_items)
                   (b "flag"))) = Ok r ∧
    Reader.gets r (b "flag") = Yield [] Stop ∧
    Reader.get r (b "flag") (@None unit) = Ok (inl []) ∧
    Reader.__contains__ r (b "flag") = Ok true.
Proof.
  apply (putkey_empty_value builtin32 (Fn djb_hash) dave_items (b "flag")).
  - vm_compute. reflexivity.
  - apply (bool_decide_unpack _). vm_compute. exact I.
  - vm_compute. split; reflexivity.
  - apply (bool_decide_unpack _). vm_compute. exact I.
Defined.

(** ** The typed readers *)

Section TypedReaders.

Context {Xi Xs U Enc : Type}.
Variable int_ : bytes → Z → Xi + Z.
Variable decode : bytes → Enc → Xs + U.

Lemma getint_of_gets {D} r key (default : option D) base vs :
  Reader.gets r key = gen_of_list vs →
  Reader.getint int_ r key default base =
  match vs, default with
  | v :: _, _ =>
      match int_ v base with
      | inr n => TOk (inl n)
      | inl x => TRaise (Conv x)
      end
  | [], Some d => TOk (inr d)
  | [], None => TRaise (Core (KeyError key))
  end.
Proof.
  intros Hg. unfold Reader.getint. rewrite (get_of_gets _ _ _ _ Hg).
  by destruct vs, default.
Qed.

Lemma getstring_of_gets {D} r key (default : option D) encoding vs :
  Reader.gets r key = gen_of_list vs →
  Reader.getstring decode r key default encoding =
  match vs, default with
  | v :: _, _ =>
      match decode v encoding with
      | inr u => TOk (inl u)
      | inl x => TRaise (Conv x)
      end
  | [], Some d => TOk (inr d)
  | [], None => TRaise (Core (KeyError key))
  end.
Proof.
  intros Hg. unfold Reader.getstring. rewrite (get_of_gets _ _ _ _ Hg).
  by destruct vs, default.
Qed.

(** X14: for a key that was never put, whatever the hash function and
    whatever the conversions do: [key in reader] is false, [getint] and
    [getstring] raise [KeyError] without a default and return the default
    itself, unconverted, with one, and [getints] and [getstrings] yield
    nothing. *)
Theorem typed_absent builtin fn items key base encoding :
  len (image builtin fn items) < 2 ^ 32 →
  key ∉ items.*1 →
  ∃ r,
    reader builtin fn (image builtin fn items) = Ok r ∧
    Reader.__contains__ r key = Ok false ∧
    Reader.getint int_ r key (@None unit) base = TRaise (Core (KeyError key)) ∧
    (∀ (D : Type) (d : D),
       Reader.getint int_ r key (Some d) base = TOk (inr d)) ∧
    Reader.getints int_ r key base = TStop ∧
    Reader.getstring decode r key (@None unit) encoding
      = TRaise (Core (KeyError key)) ∧
    (∀ (D : Type) (d : D),
       Reader.getstring decode r key (Some d) encoding = TOk (inr d)) ∧
    Reader.getstrings decode r key encoding = TStop.
Proof.
  intros Hsz Hkey. eexists. split; [apply reader_image|].
  pose proof (gets_absent builtin fn items _ key (reader_image _ _ _) Hsz Hkey)
    as Hg.
  change Stop with (@gen_of_list bytes []) in Hg.
  unfold Reader.__contains__, Reader.getints, Reader.getstrings.
  rewrite (get_of_gets _ _ _ _ Hg), !(getint_of_gets _ _ _ _ _ Hg),
    !(getstring_of_gets _ _ _ _ _ Hg), Hg.
  repeat split; intros; by rewrite ?(getint_of_gets _ _ _ _ _ Hg),
    ?(getstring_of_gets _ _ _ _ _ Hg).
Qed.

(** X15: when no key put hashes to zero (hashes 32-bit), [getint] and
    [getstring] convert the first value put under the key and ignore a
    default; [getints] and [getstrings] yield the conversions of all its
    values in the order they were put, up to the first that fails. *)
Theorem typed_present builtin fn items key base encoding :
  len (image builtin fn items) < 2 ^ 32 →
  Forall (λ kv, 0 < hash_of builtin fn kv.1 < 2 ^ 32) items →
  ∃ r,
    reader builtin fn (image builtin fn items) = Ok r ∧
    (∀ (D : Type) (default : option D),
       Reader.getint int_ r key default base =
       match values_of key items, default with
       | v :: _, _ =>
           match int_ v base with
           | inr n => TOk (inl n)
           | inl x => TRaise (Conv x)
           end
       | [], Some d => TOk (inr d)
       | [], None => TRaise (Core (KeyError key))
       end) ∧
    Reader.getints int_ r key base
      = tgen_map (λ v, int_ v base) (gen_of_list (values_of key items)) ∧
    (∀ (D : Type) (default : option D),
       Reader.getstring decode r key default encoding =
       match values_of key items, default with
       | v :: _, _ =>
           match decode v encoding with
           | inr u => TOk (inl u)
           | inl x => TRaise (Conv x)
           end
       | [], Some d => TOk (inr d)
       | [], None => TRaise (Core (KeyError key))
       end) ∧
    Reader.getstrings decode r key encoding
      = tgen_map (λ v, decode v encoding) (gen_of_list (values_of key items)).
Proof.
  intros Hsz Hh. eexists. split; [apply reader_image|].
  pose proof (gets_image builtin fn items _ key (reader_image _ _ _) Hsz Hh)
    as Hg.
  unfold Reader.getints, Reader.getstrings. rewrite Hg.
  repeat split; intros.
  - by apply getint_of_gets.
  - by apply getstring_of_gets.
Qed.

End TypedReaders.

Lemma typed_absent_witness :
  ∃ r,
    reader builtin32 (Fn djb_hash) (image builtin32 (Fn djb_hash) dave_items)
      = Ok r ∧
    Reader.__contains__ r (b "junk") = Ok false ∧
    Reader.getint int_decimal r (b "junk") (@None unit) 0
      = TRaise (Core (KeyError (b "junk"))) ∧
    (∀ (D : Type) (d : D),
       Reader.getint int_decimal r (b "junk") (Some d) 0 = TOk (inr d)) ∧
    Reader.getints int_decimal r (b "junk") 0 = TStop ∧
    Reader.getstring decode_text r (b "junk") (@None unit) utf_8
      = TRaise (Core (KeyError (b "junk"))) ∧
    (∀ (D : Type) (d : D),
       Reader.getstring decode_text r (b "junk") (Some d) utf_8
       = TOk (inr d)) ∧
    Reader.getstrings decode_text r (b "junk") utf_8 = TStop.
Proof.
  apply (typed_absent int_decimal decode_text builtin32 (Fn djb_hash)
           dave_items (b "junk") 0 utf_8).
  - vm_compute. reflexivity.
  - apply (bool_decide_unpack _). vm_compute. exact I.
Defined.

Lemma typed_present_witness :
  ∃ r,
    reader builtin32 (Fn djb_hash) (image builtin32 (Fn djb_hash) dave_items)
      = Ok r ∧
    (∀ (D : Type) (default : option D),
       Reader.getint int_decimal r (b "dave") default 0 =
       match values_of (b "dave") dave_items, default with
       | v :: _, _ =>
           match int_decimal v 0 with
           | inr n => TOk (inl n)
           | inl x => TRaise (Conv x)
           end
       | [], Some d => TOk (inr d)
       | [], None => TRaise (Core (KeyError (b "dave")))
       end) ∧
    Reader.getints int_decimal r (b "dave") 0
      = tgen_map (λ v, int_decimal v 0)
          (gen_of_list (values_of (b "dave") dave_items)) ∧
    (∀ (D : Type) (default : option D),
       Reader.getstring decode_text r (b "dave") default utf_8 =
       match values_of (b "dave") dave_items, default with
       | v :: _, _ =>
           match decode_text v utf_8 with
           | inr u => TOk (inl u)
           | inl x => TRaise (Conv x)
           end
       | [], Some d => TOk (inr d)
       | [], None => TRaise (Core (KeyError (b "dave")))
       end) ∧
    Reader.getstrings decode_text r (b "dave") utf_8
      = tgen_map (λ v, decode_text v utf_8)
          (gen_of_list (values_of (b "dave") dave_items)).
Proof.
  apply (typed_present int_decimal decode_text builtin32 (Fn djb_hash)
           dave_items (b "dave") 0 utf_8).
  - vm_compute. reflexivity.
  - apply (bool_decide_unpack _). vm_compute. exact I.
Defined.

(** ** The typed writers *)

Lemma tgen_map_of_list {X A} (conv : bytes → X + A) vs (ns : list A) :
  Forall2 (λ v n, conv v = inr n) vs ns →
  tgen_map conv (gen_of_list vs) = tgen_of_list ns.
Proof.
  induction 1 as [|v n vs ns Hv _ IH]; [done|].
  cbn [gen_of_list tgen_map tgen_of_list]. by rewrite Hv, IH.
Qed.

Section TypedWriters.

Context {T U Enc Xi Xs Xe : Type}.
Variable str : T → bytes.
Variable int_ : bytes → Z → Xi + Z.
Variable encode : U → Enc → Xe + bytes.
Variable decode : bytes → Enc → Xs + U.
Variable utf8 : Enc.

(** X16: integers written with [putints] (or one with [putint]) under a
    key not put before are read back by [getints] in the same order, and
    the first by [getint], provided [int] reads what [str] wrote (no hash
    zero, hashes 32-bit). *)
Theorem putints_getints_round_trip builtin fn items key values ns base :
  let items' := items ++ ((λ v, (key, str v)) <$> values) in
  len (image builtin fn items') < 2 ^ 32 →
  Forall (λ kv, 0 < hash_of builtin fn kv.1 < 2 ^ 32) items →
  0 < hash_of builtin fn key < 2 ^ 32 →
  key ∉ items.*1 →
  Forall2 (λ value n, int_ (str value) base = inr n) values ns →
  (∀ w value, Writer.putint str w key value
              = Writer.putints str w key [value]) ∧
  ∃ r,
    reader builtin fn
      (finished (Writer.putints str (written builtin fn items) key values))
      = Ok r ∧
    Reader.getints int_ r key base = tgen_of_list ns ∧
    ∀ (D : Type) (default : option D),
      Reader.getint int_ r key default base =
      match ns, default with
      | n :: _, _ => TOk (inl n)
      | [], Some d => TOk (inr d)
      | [], None => TRaise (Core (KeyError key))
      end.
Proof.
  intros items' Hsz Hh Hk Hnew Hconv. split; [done|].
  unfold Writer.putints. rewrite puts_written, <- list_fmap_compose.
  change (finished _) with (image builtin fn items').
  eexists. split; [apply reader_image|].
  assert (Forall (λ kv, 0 < hash_of builtin fn kv.1 < 2 ^ 32) items') as Hh'.
  { apply Forall_app. split; [done|].
    apply Forall_fmap, Forall_forall. by intros v _. }
  pose proof (gets_image builtin fn items' _ key (reader_image _ _ _) Hsz Hh')
    as Hg.
  assert (values_of key items' = str <$> values) as Hv.
  { unfold items'. rewrite values_of_app, (proj2 (values_of_nil _ _) Hnew).
    rewrite (list_fmap_compose str (λ v, (key, v))). apply values_of_same. }
  rewrite Hv in Hg. split.
  - unfold Reader.getints. rewrite Hg. apply tgen_map_of_list.
    by apply Forall2_fmap_l.
  - intros D default. rewrite (getint_of_gets _ _ _ _ _ _ Hg).
    destruct Hconv as [|value n values ns Hc _]; [done|].
    cbn [fmap list_fmap]. by rewrite Hc.
Qed.

Lemma putstrings_ok w key values ss encoding :
  Forall2 (λ value s, encode value encoding = inr s) values ss →
  Writer.putstrings encode w key values encoding
  = (Writer.puts w key ss, None).
Proof.
  intros Henc. revert w.
  induction Henc as [|value s values ss Hs _ IH]; intros w; [done|].
  cbn [Writer.putstrings]. rewrite Hs, IH. done.
Qed.

(** X17: text written with [putstrings] in some encoding under a key not
    put before is read back by [getstrings] with that encoding in the
    same order, and the first by [getstring], provided [decode] reads
    what [encode] wrote (no hash zero, hashes 32-bit). *)
Theorem putstrings_getstrings_round_trip
    builtin fn items key values ss encoding :
  let items' := items ++ ((λ s, (key, s)) <$> ss) in
  len (image builtin fn items') < 2 ^ 32 →
  Forall (λ kv, 0 < hash_of builtin fn kv.1 < 2 ^ 32) items →
  0 < hash_of builtin fn key < 2 ^ 32 →
  key ∉ items.*1 →
  Forall2 (λ value s, encode value encoding = inr s ∧
                      decode s encoding = inr value) values ss →
  ∃ w r,
    Writer.putstrings encode (written builtin fn items) key values encoding
      = (w, None) ∧
    reader builtin fn (finished w) = Ok r ∧
    Reader.getstrings decode r key encoding = tgen_of_list values ∧
    ∀ (D : Type) (default : option D),
      Reader.getstring decode r key default encoding =
      match values, default with
      | u :: _, _ => TOk (inl u)
      | [], Some d => TOk (inr d)
      | [], None => TRaise (Core (KeyError key))
      end.
Proof.
  intros items' Hsz Hh Hk Hnew Hcodec.
  eexists _, _. split.
  { apply putstrings_ok. eapply Forall2_impl; [exact Hcodec|]. by intros ?? [? _]. }
  rewrite puts_written. change (finished _) with (image builtin fn items').
  split; [apply reader_image|].
  assert (Forall (λ kv, 0 < hash_of builtin fn kv.1 < 2 ^ 32) items') as Hh'.
  { apply Forall_app. split; [done|].
    apply Forall_fmap, Forall_forall. by intros v _. }
  pose proof (gets_image builtin fn items' _ key (reader_image _ _ _) Hsz Hh')
    as Hg.
  assert (values_of key items' = ss) as Hv.
  { unfold items'. rewrite values_of_app, (proj2 (values_of_nil _ _) Hnew).
    apply values_of_same. }
  rewrite Hv in Hg. split.
  - unfold Reader.getstrings. rewrite Hg. apply tgen_map_of_list.
    apply Forall2_flip. eapply Forall2_impl; [exact Hcodec|]. by intros ?? [_ ?].
  - intros D default. rewrite (getstring_of_gets _ _ _ _ _ _ Hg).
    destruct Hcodec as [|value s values ss [_ Hd] _]; [done|].
    by rewrite Hd.
Qed.

(** X18: [putstring] does not use the encoding it is given: whatever is
    passed, it writes the UTF-8 bytes of the text, so [getstring] with
    encoding [e] returns what [decode] makes of those UTF-8 bytes in [e]
    (the text itself when [e] is UTF-8 and the codec round-trips). *)
Theorem putstring_always_utf8 builtin fn items key value s passed e :
  len (image builtin fn (items ++ [(key, s)])) < 2 ^ 32 →
  Forall (λ kv, 0 < hash_of builtin fn kv.1 < 2 ^ 32) items →
  0 < hash_of builtin fn key < 2 ^ 32 →
  key ∉ items.*1 →
  encode value utf8 = inr s →
  Writer.putstring encode utf8 (written builtin fn items) key value passed
    = (Writer.put (written builtin fn items) key s, None) ∧
  ∃ r,
    reader builtin fn
      (finished
         (Writer.putstring encode utf8 (written builtin fn items) key value
            passed).1) = Ok r ∧
    Reader.gets r key = Yield s Stop ∧
    Reader.getstring decode r key (@None unit) e =
      match decode s e with
      | inr u => TOk (inl u)
      | inl x => TRaise (Conv x)
      end.
Proof.
  intros Hsz Hh Hk Hnew Henc. unfold Writer.putstring. rewrite Henc.
  split; [done|]. cbn [fst].
  assert (Writer.put (written builtin fn items) key s
          = written builtin fn (items ++ [(key, s)])) as ->
    by by rewrite written_app.
  change (finished _) with (image builtin fn (items ++ [(key, s)])).
  eexists. split; [apply reader_image|].
  assert (Reader.gets
            (Reader.Make (image builtin fn (items ++ [(key, s)])) None None
               (hash_of builtin fn)) key = gen_of_list [s]) as Hg.
  { rewrite (gets_image builtin fn _ _ key (reader_image _ _ _) Hsz).
    - rewrite values_of_app, (proj2 (values_of_nil key items) Hnew).
      unfold values_of. rewrite filter_cons, decide_True by done. done.
    - apply Forall_app. split; [done|]. by apply Forall_singleton. }
  split; [exact Hg|]. by rewrite (getstring_of_gets _ _ _ _ _ _ Hg).
Qed.

(** X19: [putstrings] encodes each text when its turn comes: when the
    encoding of one fails, the texts before it have been put and stay
    put, and the exception is raised. *)
Theorem putstrings_stops_at_failure w key before bad after ss encoding x :
  Forall2 (λ value s, encode value encoding = inr s) before ss →
  encode bad encoding = inl x →
  Writer.putstrings encode w key (before ++ bad :: after) encoding
  = (Writer.puts w key ss, Some x).
Proof.
  intros Henc Hbad. revert w.
  induction Henc as [|value s values ss' Hs _ IH]; intros w.
  - cbn [app Writer.putstrings]. by rewrite Hbad.
  - cbn [app Writer.putstrings]. rewrite Hs, IH. done.
Qed.

End TypedWriters.

Lemma putints_getints_round_trip_witness :
  (∀ w value, Writer.putint str_int w (b "count") value
              = Writer.putints str_int w (b "count") [value]) ∧
  ∃ r,
    reader builtin32 (Fn djb_hash)
      (finished (Writer.putints str_int
                   (written builtin32 (Fn djb_hash) dave_items) (b "count")
                   [7; -42; 0])) = Ok r ∧
    Reader.getints int_decimal r (b "count") 0 = tgen_of_list [7; -42; 0] ∧
    ∀ (D : Type) (default : option D),
      Reader.getint int_decimal r (b "count") default 0 =
      match [7; -42; 0], default with
      | n :: _, _ => TOk (inl n)
      | [], Some d => TOk (inr d)
      | [], None => TRaise (Core (KeyError (b "count")))
      end.
Proof.
  apply (putints_getints_round_trip str_int int_decimal builtin32
           (Fn djb_hash) dave_items (b "count") [7; -42; 0] [7; -42; 0] 0).
  - vm_compute. reflexivity.
  - apply (bool_decide_unpack _). vm_compute. exact I.
  - vm_compute. split; reflexivity.
  - apply (bool_decide_unpack _). vm_compute. exact I.
  - repeat constructor.
Defined.

Lemma putstrings_getstrings_round_trip_witness :
  ∃ w r,
    Writer.putstrings encode_text
      (written builtin32 (Fn djb_hash) dave_items) (b "art")
      [cafe; [104; 105]] latin_1 = (w, None) ∧
    reader builtin32 (Fn djb_hash) (finished w) = Ok r ∧
    Reader.getstrings decode_text r (b "art") latin_1
      = tgen_of_list [cafe; [104; 105]] ∧
    ∀ (D : Type) (default : option D),
      Reader.getstring decode_text r (b "art") default latin_1 =
      match [cafe; [104; 105]], default with
      | u :: _, _ => TOk (inl u)
      | [], Some d => TOk (inr d)
      | [], None => TRaise (Core (KeyError (b "art")))
      end.
Proof.
  apply (putstrings_getstrings_round_trip encode_text decode_text builtin32
           (Fn djb_hash) dave_items (b "art") [cafe; [104; 105]]
           [chr <$> cafe; [chr 104; chr 105]] latin_1).
  - vm_compute. reflexivity.
  - apply (bool_decide_unpack _). vm_compute. exact I.
  - vm_compute. split; reflexivity.
  - apply (bool_decide_unpack _). vm_compute. exact I.
  - repeat constructor.
Defined.

Lemma putstring_always_utf8_witness :
  Writer.putstring encode_text utf_8
    (written builtin32 (Fn djb_hash) dave_items) (b "art") cafe latin_1
    = (Writer.put (written builtin32 (Fn djb_hash) dave_items) (b "art")
         cafe_utf_8, None) ∧
  ∃ r,
    reader builtin32 (Fn djb_hash)
      (finished
         (Writer.putstring encode_text utf_8
            (written builtin32 (Fn djb_hash) dave_items) (b "art") cafe
            latin_1).1) = Ok r ∧
    Reader.gets r (b "art") = Yield cafe_utf_8 Stop ∧
    Reader.getstring decode_text r (b "art") (@None unit) latin_1 =
      match decode_text cafe_utf_8 latin_1 with
      | inr u => TOk (inl u)
      | inl x => TRaise (Conv x)
      end.
Proof.
  apply (putstring_always_utf8 encode_text decode_text utf_8 builtin32
           (Fn djb_hash) dave_items (b "art") cafe cafe_utf_8 latin_1 latin_1).
  - vm_compute. reflexivity.
  - apply (bool_decide_unpack _). vm_compute. exact I.
  - vm_compute. split; reflexivity.
  - apply (bool_decide_unpack _). vm_compute. exact I.
  - reflexivity.
Defined.

Lemma putstrings_stops_at_failure_witness :
  Writer.putstrings encode_text
    (written builtin32 (Fn djb_hash) dave_items) (b "art")
    ([[104; 105]] ++ [8364] :: [[1]]) latin_1
  = (Writer.puts (written builtin32 (Fn djb_hash) dave_items) (b "art")
       [[chr 104; chr 105]], Some tt).
Proof.
  apply (putstrings_stops_at_failure encode_text
           (written builtin32 (Fn djb_hash) dave_items) (b "art")
           [[104; 105]] [8364] [[1]] [[chr 104; chr 105]] latin_1 tt).
  - repeat constructor.
  - reflexivity.
Defined.
